(** * textus: the ElasticSearch data store (src/js/datastore/dataStore-elastic.js)

    A shallow embedding of the chunking, range-query, reconstruction and
    indexing code of the data store, and the properties of it that the
    specification states. *)

From Stdlib Require Import ZArith Ascii String List Lia Permutation Sorted.
From stdpp Require Import gmap strings list sorting.

Local Open Scope Z_scope.

(** ** JavaScript strings

    Strings are sequences of code units (here [ascii]); lengths and indices
    are JavaScript numbers, which the code only uses as integers ([Z]). *)

Module JsString.

Definition len (s : string) : Z := Z.of_nat (String.length s).

Fixpoint take (n : nat) (s : string) : string :=
  match n, s with
  | O, _ => EmptyString
  | S _, EmptyString => EmptyString
  | S n', String a s' => String a (take n' s')
  end.

Fixpoint drop (n : nat) (s : string) : string :=
  match n, s with
  | O, _ => s
  | S _, EmptyString => EmptyString
  | S n', String _ s' => drop n' s'
  end.

(** [s.substring(a, b)]: both arguments are clamped to [0, s.length] and
    swapped when [a > b]. *)
Definition substring (s : string) (a b : Z) : string :=
  let a' := Z.min (Z.max a 0) (len s) in
  let b' := Z.min (Z.max b 0) (len s) in
  let from := Z.min a' b' in
  let to := Z.max a' b' in
  take (Z.to_nat (to - from)) (drop (Z.to_nat from) s).

(** [s.substring(a)]: the end defaults to [s.length]. *)
Definition substring_from (s : string) (a : Z) : string :=
  substring s a (len s).

(** [s.substr(start, length)]: a negative [start] counts from the end of
    the string, [length] is clamped to what is left. *)
Definition substr (s : string) (start length : Z) : string :=
  let size := len s in
  let intStart := if start <? 0 then Z.max (size + start) 0 else Z.min start size in
  let intLength := Z.min (Z.max length 0) size in
  let intEnd := Z.min (intStart + intLength) size in
  take (Z.to_nat (intEnd - intStart)) (drop (Z.to_nat intStart) s).

(** Scan of [s] from index [i] on, remembering in [found] the last index
    not above [start] that holds the code unit [c]. *)
Fixpoint lastIndexOf_scan (c : ascii) (start : Z) (s : string) (i found : Z) : Z :=
  match s with
  | EmptyString => found
  | String a s' =>
      lastIndexOf_scan c start s' (i + 1)
        (if (i <=? start) && Ascii.eqb a c then i else found)
  end.

(** [s.lastIndexOf(c, position)] for a search string of one code unit:
    the largest index [k <= min(max(position, 0), s.length)] with
    [s[k] = c], or [-1] when there is none. *)
Definition lastIndexOf (s : string) (c : ascii) (position : Z) : Z :=
  lastIndexOf_scan c (Z.min (Z.max position 0) (len s)) s 0 (-1).

(** [l.join("")]. *)
Definition join (l : list string) : string := foldr String.append EmptyString l.

End JsString.

(** ** Array.prototype.sort with a comparator [a.key - b.key]

    The sort is stable: elements with equal keys keep their input order. *)

Section Sort.
Context {A : Type} (key : A -> Z).

Fixpoint sort_insert (x : A) (l : list A) : list A :=
  match l with
  | [] => [x]
  | y :: l' => if key x <=? key y then x :: l else y :: sort_insert x l'
  end.

Definition sort_by (l : list A) : list A := foldr sort_insert [] l.
End Sort.

(** ** Text parts and chunks *)

(** An input fragment [{sequence, text}] of [data.text]. *)
Record TextPart := { part_sequence : Z; part_text : string }.

(** An element [{text, offset}] of the array [createTextChunks] returns. *)
Record Chunk := { chunk_text : string; chunk_offset : Z }.

(** The first statement of [createTextChunks]: sort by sequence, extract
    the text parts and join them together. *)
Definition mergeParts (parts : list TextPart) : string :=
  JsString.join (map part_text (sort_by part_sequence parts)).

(** The [while (text != "")] loop of [createTextChunks].  Each unit of
    [fuel] pays for one evaluation of the loop condition; [None] means the
    fuel ran out before the loop was left.  When [lastIndexOf] answers -1
    the body only assigns the local [length] and pushes nothing: [text],
    [offset] and [result] reach the next iteration unchanged. *)
Fixpoint chunkLoop (fuel : nat) (maxSize : Z) (text : string) (offset : Z)
    (result : list Chunk) : option (list Chunk) :=
  match fuel with
  | O => None
  | S fuel' =>
      if String.eqb text "" then Some result
      else
        let length := JsString.lastIndexOf text " "%char maxSize in
        if length =? -1 then
          chunkLoop fuel' maxSize text offset result
        else if length =? 0 then
          chunkLoop fuel' maxSize ""
            offset (result ++ [{| chunk_text := text; chunk_offset := offset |}])
        else
          chunkLoop fuel' maxSize (JsString.substring_from text length)
            (offset + length)
            (result ++ [{| chunk_text := JsString.substring text 0 length;
                           chunk_offset := offset |}])
  end.

Definition createTextChunks (fuel : nat) (maxSize : Z) (parts : list TextPart)
    : option (list Chunk) :=
  chunkLoop fuel maxSize (mergeParts parts) 0 [].

(** ** Stored text chunks and their reconstruction *)

(** The [{text, start, end}] view of a stored text chunk. *)
Record TextChunk := { tc_text : string; tc_start : Z; tc_end : Z }.

(** What [joinTextChunksAndTrim] returns: [{text, start, end}], or only
    [{text}] when no trim was asked for. *)
Record Joined := { j_text : string; j_start : option Z; j_end : option Z }.

(** [start] and [end] are numbers or [null] ([None]). *)
Definition joinTextChunksAndTrim (start end_ : option Z) (chunks : list TextChunk)
    : Joined :=
  match chunks with
  | [] => {| j_text := ""; j_start := Some 0; j_end := Some 0 |}
  | _ :: _ =>
      let chunks := sort_by tc_start chunks in
      match start, end_ with
      | Some start, Some end_ =>
          {| j_text :=
               JsString.substr (JsString.join (map tc_text chunks))
                 (start - match chunks with c :: _ => tc_start c | [] => 0 end)
                 (end_ - start);
             j_start := Some start;
             j_end := Some end_ |}
      | _, _ =>
          {| j_text := JsString.join (map tc_text chunks);
             j_start := None; j_end := None |}
      end
  end.

(** ** JavaScript values, objects and the heap *)

Definition loc := positive.

(** Built-in function objects the code refers to. *)
Inductive Builtin := DateNow.

Inductive JsVal :=
| VUndefined
| VNull
| VBool (b : bool)
| VNum (n : Z)
| VStr (s : string)
| VFun (f : Builtin)
| VObj (l : loc).

(** Objects are maps from property names to values; the heap holds the
    objects that callers and the data store share by reference. *)
Abbreviation Obj := (gmap string JsVal).
Abbreviation Heap := (gmap loc Obj).

(** ToBoolean, as used by [if (item)]. *)
Definition truthy (v : JsVal) : bool :=
  match v with
  | VUndefined | VNull => false
  | VBool b => b
  | VNum n => negb (n =? 0)
  | VStr s => negb (String.eqb s "")
  | VFun _ | VObj _ => true
  end.

(** [o.f = v] for the object at [l]. *)
Definition set_field (l : loc) (f : string) (v : JsVal) (h : Heap) : Heap :=
  alter (insert f v) l h.

(** A fresh object (an object literal). *)
Definition alloc (o : Obj) (h : Heap) : loc * Heap :=
  let l := fresh (dom h) in (l, <[l := o]> h).

(** The content of a value as the store client serialises it. *)
Definition snapshot (h : Heap) (v : JsVal) : option Obj :=
  match v with
  | VObj l => h !! l
  | _ => None
  end.

(** The [text], [start] and [end] properties of a stored object, as
    [joinTextChunksAndTrim] reads them from the hits of type "text".  The
    view is that of the code for the records [importData] writes, whose
    [text] is a string and whose [start] and [end] are numbers; on any
    other object the code compares and joins what it finds (a missing
    [start] makes the comparator answer NaN, a [text] that is no string
    is turned into one), which the defaults here do not follow. *)
Definition as_chunk (o : Obj) : TextChunk :=
  {| tc_text := match o !! "text"%string with Some (VStr s) => s | _ => "" end;
     tc_start := match o !! "start"%string with Some (VNum n) => n | _ => 0 end;
     tc_end := match o !! "end"%string with Some (VNum n) => n | _ => 0 end |}.

(** ** The range query *)

(** The sub-clauses of the query object: [{"text": {field: value}}],
    [{"range": {field: {"lt": bound}}}], [{"range": {field: {"gte": bound}}}]. *)
Inductive Clause :=
| TextClause (field value : string)
| RangeLt (field : string) (bound : option Z)
| RangeGte (field : string) (bound : option Z).

(** [{"query": {"bool": {"must": [...]}}, "size": ..., "index": ...}]. *)
Record Query := { q_must : list Clause; q_size : Z; q_index : string }.

Definition buildRangeQuery (textusIndex textId : string) (start end_ : option Z)
    : Query :=
  {| q_must := [ TextClause "textId" textId;
                 RangeLt "start" end_;
                 RangeGte "end" start ];
     q_size := 1000000;
     q_index := textusIndex |}.

(** Meaning of the query in the store, which is not part of this code: a
    document is selected when every clause of the "must" list holds of it,
    a "text" clause holding when the field has the given value, a "range"
    clause when the field is a number below ("lt") or not below ("gte")
    the bound; a [null] bound does not constrain. *)
Definition clause_holds (c : Clause) (doc : Obj) : bool :=
  match c with
  | TextClause f v =>
      match doc !! f with Some (VStr s) => String.eqb s v | _ => false end
  | RangeLt f bound =>
      match doc !! f, bound with
      | Some (VNum x), Some b => x <? b
      | Some (VNum _), None => true
      | _, _ => false
      end
  | RangeGte f bound =>
      match doc !! f, bound with
      | Some (VNum x), Some b => b <=? x
      | Some (VNum _), None => true
      | _, _ => false
      end
  end.

Definition selects (q : Query) (doc : Obj) : bool :=
  forallb (fun c => clause_holds c doc) (q_must q).

(** ** The store client *)

(** An error object; [err.message] is assignable. *)
Record Err := { err_message : string; err_detail : string }.

Definition set_message (e : Err) (m : string) : Err :=
  {| err_message := m; err_detail := err_detail e |}.

(** What [fetchText] passes as its callback's first argument: an error
    object of the store, or a message string of its own. *)
Inductive JsError :=
| ErrObject (e : Err)
| ErrString (s : string).

(** The options object of [client.index]: [{id, refresh, create}]. *)
Record IndexOptions :=
  { opt_id : option string; opt_refresh : option bool; opt_create : option bool }.

(** The response of [client.index]; [res._id] is the document's id. *)
Record IndexResult := { res_id : string }.

(** A search hit [{_type, _id, _source}]. *)
Record Hit := { hit_type : string; hit_id : string; hit_source : Obj }.

(** The ElasticSearch client is an external collaborator: its operations
    are transitions of an unknown store state [S], each answering with an
    error or with a result. *)
Record Client (S : Type) := {
  es_index : string -> string -> JsVal -> option Obj -> option IndexOptions ->
             S -> (Err + IndexResult) * S;
  es_search : Query -> S -> (Err + list Hit) * S;
  es_get : string -> string -> S -> (Err + Obj) * S;
  es_refresh : string -> S -> option Err * S
}.
Arguments es_index {S}.
Arguments es_search {S}.
Arguments es_get {S}.
Arguments es_refresh {S}.

(** The requests made to the client, with the answers it gave. *)
Inductive Call :=
| CallIndex (index type : string) (item : JsVal) (doc : option Obj)
    (options : option IndexOptions) (reply : Err + IndexResult)
| CallSearch (query : Query) (reply : Err + list Hit)
| CallGet (index id : string) (reply : Err + Obj)
| CallRefresh (index : string) (reply : option Err).

(** The state a run threads: the heap of shared objects, the store's state
    and the log of requests made so far. *)
Record World (S : Type) := { heap : Heap; store : S; calls : list Call }.
Arguments heap {S}.
Arguments store {S}.
Arguments calls {S}.
Arguments Build_World {S}.

(** A run either reaches its end (callbacks are continuations, and [Done]
    holds what the outermost callback answered) or is still inside the
    chunking loop when the fuel is spent, in the world it had then. *)
Inductive Run (S R : Type) :=
| Done (r : R)
| OutOfFuel (w : World S).
Arguments Done {S R}.
Arguments OutOfFuel {S R}.

(** One collection [{type, list}] handed to [indexArrays]. *)
Record Collection := { coll_type : string; coll_list : list JsVal }.

(** The [data] argument of [importData]. *)
Record ImportData := {
  data_metadata : loc;
  data_text : list TextPart;
  data_semantics : list loc;
  data_typography : list loc
}.

(** The object [fetchText] hands to its callback. *)
Record FetchData := {
  fd_textId : string;
  fd_text : string;
  fd_typography : list Obj;
  fd_semantics : list Obj;
  fd_start : option Z;
  fd_end : option Z
}.

(** The accumulators of the [forEach] over the hits in [fetchText]. *)
Record HitAcc := {
  acc_textChunks : list Obj;
  acc_typography : list Obj;
  acc_semantics : list Obj;
  acc_error : option string
}.

Definition textChunkSize : Z := 1000.

(** ** The data store *)

Section Datastore.
Context {S : Type}.
Variable client : Client S.
(** [conf.es.index]. *)
Variable textusIndex : string.

(** [client.index(index, type, item, [options,] function(err, res))]. *)
Definition client_index {R} (index type : string) (item : JsVal)
    (options : option IndexOptions)
    (callback : option Err -> option IndexResult -> World S -> R)
    (w : World S) : R :=
  let doc := snapshot (heap w) item in
  let '(reply, s') := es_index client index type item doc options (store w) in
  let w' := {| heap := heap w; store := s';
               calls := calls w ++ [CallIndex index type item doc options reply] |} in
  match reply with
  | inl err => callback (Some err) None w'
  | inr res => callback None (Some res) w'
  end.

(** [client.search(query, function(err, results, res))]; the hits are
    [results.hits]. *)
Definition client_search {R} (query : Query)
    (callback : option Err -> option (list Hit) -> World S -> R)
    (w : World S) : R :=
  let '(reply, s') := es_search client query (store w) in
  let w' := {| heap := heap w; store := s';
               calls := calls w ++ [CallSearch query reply] |} in
  match reply with
  | inl err => callback (Some err) None w'
  | inr hits => callback None (Some hits) w'
  end.

(** [client.get(index, id, function(err, doc, res))]. *)
Definition client_get {R} (index id : string)
    (callback : option Err -> option Obj -> World S -> R)
    (w : World S) : R :=
  let '(reply, s') := es_get client index id (store w) in
  let w' := {| heap := heap w; store := s';
               calls := calls w ++ [CallGet index id reply] |} in
  match reply with
  | inl err => callback (Some err) None w'
  | inr doc => callback None (Some doc) w'
  end.

(** [client.refresh(index, function(err, res))]. *)
Definition client_refresh {R} (index : string)
    (callback : option Err -> World S -> R) (w : World S) : R :=
  let '(reply, s') := es_refresh client index (store w) in
  callback reply
    {| heap := heap w; store := s';
       calls := calls w ++ [CallRefresh index reply] |}.

(** [indexArray]: [list.shift()] takes the first item; an empty list
    gives [undefined], which is falsy like any other falsy item.  The
    array is used up by the run; every collection has an array of its own
    (in [importData] each is the fresh result of a [map]), so the lists are
    passed by value.  The calls of [console.log] are left out. *)
Fixpoint indexArray {R} (index type : string) (list : list JsVal)
    (callback : option Err -> World S -> R) (w : World S) : R :=
  match list with
  | [] => callback None w
  | item :: list =>
      if truthy item then
        client_index index type item None
          (fun err _ =>
             match err with
             | Some err => callback (Some err)
             | None => indexArray index type list callback
             end) w
      else callback None w
  end.

(** [indexArrays]: the elements of [lists] are objects [{type, list}]. *)
Fixpoint indexArrays {R} (index : string) (lists : list Collection)
    (callback : option Err -> World S -> R) (w : World S) : R :=
  match lists with
  | [] => callback None w
  | wrap :: lists =>
      let type := coll_type wrap in
      let list := coll_list wrap in
      indexArray index type list
        (fun err =>
           match err with
           | Some err =>
               callback (Some (set_message err ("Error while indexing " ++ type)))
           | None => indexArrays index lists callback
           end) w
  end.

(** Not implemented in the source: reports success at once. *)
Definition regenerateBibliographicReferences {R} (textId : string)
    (newMetadata : loc) (callback : option Err -> World S -> R)
    (w : World S) : R :=
  callback None w.

Definition getTextMetadata {R} (textId : string)
    (callback : option Err -> option Obj -> World S -> R)
    (w : World S) : R :=
  client_get textusIndex textId
    (fun err doc =>
       match err with
       | Some err => callback (Some err) None
       | None => callback None doc
       end) w.

Definition updateTextMetadata {R} (textId : string) (newMetadata : loc)
    (callback : option Err -> option Obj -> World S -> R)
    (w : World S) : R :=
  let w := {| heap := set_field newMetadata "date" (VFun DateNow) (heap w);
              store := store w; calls := calls w |} in
  client_index textusIndex "structure" (VObj newMetadata)
    (Some {| opt_id := Some textId; opt_refresh := Some true;
             opt_create := Some false |})
    (fun err result =>
       match err with
       | Some err => callback (Some err) None
       | None =>
           regenerateBibliographicReferences textId newMetadata
             (fun err =>
                match err with
                | None => getTextMetadata textId callback
                | Some err => callback (Some err) None
                end)
       end) w.

(** The body of the [forEach] over [results.hits] in [fetchText]. *)
Definition fetchText_hit (acc : HitAcc) (hit : Hit) : HitAcc :=
  if String.eqb (hit_type hit) "text" then
    {| acc_textChunks := acc_textChunks acc ++ [hit_source hit];
       acc_typography := acc_typography acc;
       acc_semantics := acc_semantics acc;
       acc_error := acc_error acc |}
  else if String.eqb (hit_type hit) "typography" then
    {| acc_textChunks := acc_textChunks acc;
       acc_typography :=
         acc_typography acc
           ++ [<["id"%string := VStr (hit_id hit)]> (hit_source hit)];
       acc_semantics := acc_semantics acc;
       acc_error := acc_error acc |}
  else if String.eqb (hit_type hit) "semantics" then
    {| acc_textChunks := acc_textChunks acc;
       acc_typography := acc_typography acc;
       acc_semantics :=
         acc_semantics acc
           ++ [<["id"%string := VStr (hit_id hit)]> (hit_source hit)];
       acc_error := acc_error acc |}
  else
    {| acc_textChunks := acc_textChunks acc;
       acc_typography := acc_typography acc;
       acc_semantics := acc_semantics acc;
       acc_error := Some ("Unknown result type! '" ++ hit_type hit ++ "'.")%string |}.

Definition fetchText {R} (textId : string) (start end_ : option Z)
    (callback : option JsError -> option FetchData -> World S -> R)
    (w : World S) : R :=
  client_search (buildRangeQuery textusIndex textId start end_)
    (fun err results =>
       match err, results with
       | None, Some hits =>
           let acc :=
             fold_left fetchText_hit hits
               {| acc_textChunks := []; acc_typography := [];
                  acc_semantics := []; acc_error := None |} in
           callback (ErrString <$> acc_error acc)
             (Some
                {| fd_textId := textId;
                   fd_text :=
                     j_text (joinTextChunksAndTrim start end_
                               (map as_chunk (acc_textChunks acc)));
                   fd_typography := acc_typography acc;
                   fd_semantics := acc_semantics acc;
                   fd_start := start;
                   fd_end := end_ |})
       | Some err, _ => callback (Some (ErrObject err)) None
       | None, None => callback None None
       end) w.

(** The object literal [{textId, text, start, end}] built for a chunk. *)
Definition chunk_object (textId : string) (chunk : Chunk) : Obj :=
  <["textId"%string := VStr textId]>
    (<["text"%string := VStr (chunk_text chunk)]>
       (<["start"%string := VNum (chunk_offset chunk)]>
          (<["end"%string :=
               VNum (chunk_offset chunk + JsString.len (chunk_text chunk))]> ∅))).

(** [chunks.map(function(chunk) { return {...}; })]: one fresh object per
    chunk. *)
Fixpoint alloc_chunks (textId : string) (chunks : list Chunk) (h : Heap)
    : list JsVal * Heap :=
  match chunks with
  | [] => ([], h)
  | chunk :: chunks =>
      let '(l, h) := alloc (chunk_object textId chunk) h in
      let '(items, h) := alloc_chunks textId chunks h in
      (VObj l :: items, h)
  end.

(** [annotations.map(function(annotation) { annotation.textId = textId;
    return annotation; })]: the caller's objects are updated in place. *)
Definition stamp_annotations (textId : string) (annotations : list loc)
    (h : Heap) : list JsVal * Heap :=
  (map VObj annotations,
   fold_left (fun h l => set_field l "textId" (VStr textId) h) annotations h).

Definition importData {R} (fuel : nat) (data : ImportData)
    (callback : option Err -> option string -> World S -> R)
    (w : World S) : Run S R :=
  let w := {| heap := set_field (data_metadata data) "date" (VFun DateNow) (heap w);
              store := store w; calls := calls w |} in
  client_index textusIndex "structure" (VObj (data_metadata data)) None
    (fun err res w =>
       match err, res with
       | None, Some res =>
           let textId := res_id res in
           match createTextChunks fuel textChunkSize (data_text data) with
           | None => OutOfFuel w
           | Some chunks =>
               let '(text, h) := alloc_chunks textId chunks (heap w) in
               let '(semantics, h) := stamp_annotations textId (data_semantics data) h in
               let '(typography, h) := stamp_annotations textId (data_typography data) h in
               let dataToIndex :=
                 [ {| coll_type := "text"; coll_list := text |};
                   {| coll_type := "semantics"; coll_list := semantics |};
                   {| coll_type := "typography"; coll_list := typography |} ] in
               Done
                 (indexArrays textusIndex dataToIndex
                    (fun err =>
                       client_refresh textusIndex
                         (fun err => callback err (Some textId)))
                    {| heap := h; store := store w; calls := calls w |})
           end
       | _, _ => Done (callback err None w)
       end) w.

End Datastore.

Arguments indexArray {S} client {R}.
Arguments indexArrays {S} client {R}.
Arguments importData {S} client textusIndex {R}.
Arguments updateTextMetadata {S} client textusIndex {R}.
Arguments getTextMetadata {S} client textusIndex {R}.
Arguments fetchText {S} client textusIndex {R}.

(** ** Vocabulary of the specification *)

(** Chunks laid end to end from offset [o]: each chunk starts where the one
    before it ends. *)
Fixpoint contiguous (o : Z) (chunks : list Chunk) : Prop :=
  match chunks with
  | [] => True
  | c :: chunks =>
      chunk_offset c = o /\ contiguous (o + JsString.len (chunk_text c)) chunks
  end.

(** Each chunk respects the size bound, but for a last chunk whose text has
    its only space at or before index [maxSize] at index 0. *)
Fixpoint bounded (maxSize : Z) (chunks : list Chunk) : Prop :=
  match chunks with
  | [] => True
  | c :: chunks =>
      (JsString.len (chunk_text c) <= maxSize \/
       (chunks = [] /\ JsString.lastIndexOf (chunk_text c) " "%char maxSize = 0)) /\
      bounded maxSize chunks
  end.

(** The suffix of the merged text a chunk was cut from: what was left of
    the text when the chunk's offset was reached. *)
Definition suffix_at (merged : string) (c : Chunk) : string :=
  JsString.substring_from merged (chunk_offset c).

(** Stored records laid end to end from offset [o] up to [n]: each record
    starts where the one before it ends and is as long as its text. *)
Fixpoint tiles (o : Z) (records : list TextChunk) (n : Z) : Prop :=
  match records with
  | [] => o = n
  | c :: records =>
      tc_start c = o /\
      tc_end c = tc_start c + JsString.len (tc_text c) /\
      tiles (tc_end c) records n
  end.

(** The records, which may come in any order, cover [0, n) of [original]
    contiguously and exactly. *)
Definition covers (original : string) (n : Z) (records : list TextChunk) : Prop :=
  exists ordered : list TextChunk,
    records ≡ₚ ordered /\
    tiles 0 ordered n /\
    JsString.join (map tc_text ordered) = original.

(** The stored record of a text with the given bounds. *)
Definition stored_record (textId : string) (start end_ : Z) : Obj :=
  <["textId"%string := VStr textId]>
    (<["start"%string := VNum start]> (<["end"%string := VNum end_]> ∅)).

(** The items [indexArray] takes off a list: all of them up to the end of
    the list or to the first falsy item. *)
Fixpoint shifted (items : list JsVal) : list JsVal :=
  match items with
  | [] => []
  | item :: items => if truthy item then item :: shifted items else []
  end.

(** The writes a sequence of collections asks for, in the supplied order:
    each item with the type of its collection. *)
Definition supplied (lists : list Collection) : list (string * JsVal) :=
  concat (map (fun wrap => map (pair (coll_type wrap)) (coll_list wrap)) lists).

(** The collections as [indexArray] takes them off. *)
Definition taken (lists : list Collection) : list Collection :=
  map (fun wrap => {| coll_type := coll_type wrap;
                      coll_list := shifted (coll_list wrap) |}) lists.

(** One attempted write: the type, the item and the client's answer. *)
Definition Attempt : Type := string * JsVal * (Err + IndexResult).

Definition attempt_write (a : Attempt) : string * JsVal := fst a.

Definition succeeded (a : Attempt) : Prop := exists res, snd a = inr res.

(** The request an attempt of [indexArray] leaves in the log. *)
Definition attempt_call (index : string) (h : Heap) (a : Attempt) : Call :=
  CallIndex index (fst (fst a)) (snd (fst a)) (snapshot h (snd (fst a))) None (snd a).

(** The writes of a log that the client answered with an error, with the
    type they were made under. *)
Definition failed_writes (log : list Call) : list (string * Err) :=
  flat_map (fun c =>
              match c with
              | CallIndex _ type _ _ _ (inl err) => [(type, err)]
              | _ => []
              end) log.

(** The world a run is in when it ends or hangs, for a run whose outermost
    callback answers with the world it is called in. *)
Definition final_world {S} (r : Run S (World S)) : World S :=
  match r with
  | Done w => w
  | OutOfFuel w => w
  end.

(** The [date] property of the object at [l]. *)
Definition date_of (h : Heap) (l : loc) : option JsVal :=
  match h !! l with
  | Some o => o !! "date"%string
  | None => None
  end.

(** The hits of one type, and the types [fetchText] does not know. *)
Definition hits_of_type (type : string) (hits : list Hit) : list Hit :=
  List.filter (fun hit => String.eqb (hit_type hit) type) hits.

Definition recognised (type : string) : bool :=
  String.eqb type "text" || String.eqb type "typography"
  || String.eqb type "semantics".

Definition unknown_types (hits : list Hit) : list string :=
  List.filter (fun type => negb (recognised type)) (map hit_type hits).

(** [hit._source.id = hit._id], for the annotations. *)
Definition with_id (hit : Hit) : Obj :=
  <["id"%string := VStr (hit_id hit)]> (hit_source hit).

(** ** A scripted client, for examples

    The writes are answered from a script, and succeed once the script is
    used up; searches, reads and refreshes have one fixed answer each. *)
Record Script := {
  script_index : list (Err + IndexResult);
  script_search : Err + list Hit;
  script_get : Err + Obj;
  script_refresh : option Err
}.

Definition scripted : Client Script :=
  {| es_index := fun _ _ _ _ _ s =>
       match script_index s with
       | [] => (inr {| res_id := "id" |}, s)
       | reply :: rest =>
           (reply, {| script_index := rest; script_search := script_search s;
                      script_get := script_get s;
                      script_refresh := script_refresh s |})
       end;
     es_search := fun _ s => (script_search s, s);
     es_get := fun _ _ s => (script_get s, s);
     es_refresh := fun _ s => (script_refresh s, s) |}.

Definition boom : Err := {| err_message := "boom"; err_detail := "connection reset" |}.

(** The objects of the examples: a metadata object at 1, an annotation at
    2 and three records to index at 11, 12 and 13. *)
Definition example_heap : Heap :=
  <[1%positive := <["title"%string := VStr "Walden"]> ∅]>
    (<[2%positive := <["type"%string := VStr "note"]> ∅]>
       (<[11%positive := <["name"%string := VStr "A"]> ∅]>
          (<[12%positive := <["name"%string := VStr "B"]> ∅]>
             (<[13%positive := <["name"%string := VStr "C"]> ∅]> ∅)))).

Definition example_world (script : Script) : World Script :=
  {| heap := example_heap; store := script; calls := [] |}.

(** The first write succeeds with the id "t1", the second fails. *)
Definition second_write_fails : Script :=
  {| script_index := [inr {| res_id := "t1" |}; inl boom];
     script_search := inr [];
     script_get := inr ∅;
     script_refresh := None |}.

(** [[{type: "text", list: [A, B]}, {type: "semantics", list: [C]}]]. *)
Definition example_collections : list Collection :=
  [ {| coll_type := "text"; coll_list := [VObj 11%positive; VObj 12%positive] |};
    {| coll_type := "semantics"; coll_list := [VObj 13%positive] |} ].

Definition example_data : ImportData :=
  {| data_metadata := 1%positive;
     data_text := [ {| part_sequence := 0; part_text := "hello world" |} ];
     data_semantics := [2%positive];
     data_typography := [] |}.

(** ** The rest of the data store *)

(** The runs of the chunking loop that end, as a relation: from the text
    left at an offset to the chunks pushed from there on. *)
Inductive cuts (maxSize : Z) : string -> Z -> list Chunk -> Prop :=
| cuts_done (offset : Z) :
    cuts maxSize "" offset []
| cuts_rest (text : string) (offset : Z) :
    text <> ""%string ->
    JsString.lastIndexOf text " "%char maxSize = 0 ->
    cuts maxSize text offset [{| chunk_text := text; chunk_offset := offset |}]
| cuts_split (text : string) (offset length : Z) (chunks : list Chunk) :
    text <> ""%string ->
    JsString.lastIndexOf text " "%char maxSize = length ->
    0 < length ->
    cuts maxSize (JsString.substring_from text length) (offset + length) chunks ->
    cuts maxSize text offset
      ({| chunk_text := JsString.substring text 0 length; chunk_offset := offset |}
         :: chunks).

(** The stored record [importData] builds for a chunk, as [fetchText] reads
    it back. *)
Definition chunk_record (chunk : Chunk) : TextChunk :=
  {| tc_text := chunk_text chunk;
     tc_start := chunk_offset chunk;
     tc_end := chunk_offset chunk + JsString.len (chunk_text chunk) |}.

(** The test of the range query on a stored record: [start < end_] of the
    window and [end >= start] of the window. *)
Definition overlaps (start end_ : Z) (c : TextChunk) : bool :=
  (tc_start c <? end_) && (start <=? tc_end c).

(** The type and the document of a write request, if the request is one. *)
Definition written (c : Call) : option (string * option Obj) :=
  match c with
  | CallIndex _ type _ doc _ _ => Some (type, doc)
  | _ => None
  end.

(** The query objects of the searches other than the range query:
    [{"bool": {"must": [...]}}], [{"text": {field: value}}] and
    [{"match_all": {}}]. *)
Inductive QueryBody :=
| QueryBool (must : list Clause)
| QueryText (field value : string)
| QueryMatchAll.

(** [{"query": ..., "filter": {"type": {"value": ...}}, "size": ...,
    "index": ...}]; the filter is optional. *)
Record SearchRequest := {
  sr_query : QueryBody;
  sr_filter : option string;
  sr_size : Z;
  sr_index : string
}.

(** [o.f] for a property that may be missing. *)
Definition property (o : Obj) (f : string) : JsVal :=
  match o !! f with
  | Some v => v
  | None => VUndefined
  end.

(** The object [fetchCompleteText] hands to its callback. *)
Record CompleteText := {
  ct_textId : string;
  ct_text : string;
  ct_typography : list Obj
}.

(** An entry [{title, owners, date}] of the summaries. *)
Record Summary := { sum_title : JsVal; sum_owners : JsVal; sum_date : JsVal }.

(** The plain object [result] of [getTextStructureSummaries]: its own
    properties, and its prototype when that is no longer the one every
    plain object starts with ([None]) but an entry assigned to
    "__proto__". *)
Record Summaries := { own : gmap string Summary; prototype : option Summary }.

Section Reads.
Context {S : Type}.
(** [client.search] on these query objects; the reads thread the state of
    the store alone, they touch no shared object. *)
Variable search : SearchRequest -> S -> (Err + list Hit) * S.
Variable textusIndex : string.

(** The body of the [forEach] over [results.hits] in [fetchCompleteText]:
    hits that are neither text nor typography are passed over. *)
Definition fetchCompleteText_hit (acc : list Obj * list Obj) (hit : Hit)
    : list Obj * list Obj :=
  if String.eqb (hit_type hit) "text" then
    (fst acc ++ [hit_source hit], snd acc)
  else if String.eqb (hit_type hit) "typography" then
    (fst acc, snd acc ++ [<["id"%string := VStr (hit_id hit)]> (hit_source hit)])
  else acc.

Definition fetchCompleteText {R} (textId : string)
    (callback : option Err -> option CompleteText -> S -> R) (s : S) : R :=
  let query :=
    {| sr_query := QueryText "textId" textId; sr_filter := None;
       sr_size := 1000000; sr_index := textusIndex |} in
  let '(reply, s') := search query s in
  match reply with
  | inl err => callback (Some err) None s'
  | inr hits =>
      let acc := fold_left fetchCompleteText_hit hits ([], []) in
      callback None
        (Some {| ct_textId := textId;
                 ct_text :=
                   j_text (joinTextChunksAndTrim None None (map as_chunk (fst acc)));
                 ct_typography := snd acc |}) s'
  end.

(** The assignment [result[hit._id] = {title, owners, date}] on the plain
    object [result]: it makes or replaces an own property, but for the key
    "__proto__", which every plain object inherits as a setter: assigning
    an object to it replaces the prototype of [result] and makes no own
    property. *)
Definition summaries_assign (result : Summaries) (hit : Hit) : Summaries :=
  let entry :=
    {| sum_title := property (hit_source hit) "title";
       sum_owners := property (hit_source hit) "owners";
       sum_date := property (hit_source hit) "date" |} in
  if String.eqb (hit_id hit) "__proto__" then
    {| own := own result; prototype := Some entry |}
  else
    {| own := <[hit_id hit := entry]> (own result);
       prototype := prototype result |}.

(** [getTextStructureSummaries]: [result] starts as [{}] and is assigned to
    for each hit in turn. *)
Definition getTextStructureSummaries {R}
    (callback : option Err -> option Summaries -> S -> R) (s : S) : R :=
  let query :=
    {| sr_query := QueryMatchAll; sr_filter := Some "structure"%string;
       sr_size := 10000; sr_index := textusIndex |} in
  let '(reply, s') := search query s in
  match reply with
  | inl err => callback (Some err) None s'
  | inr hits =>
      callback None
        (Some (fold_left summaries_assign hits {| own := ∅; prototype := None |})) s'
  end.

End Reads.

Arguments fetchCompleteText {S} search textusIndex {R}.
Arguments getTextStructureSummaries {S} search textusIndex {R}.

Section Writes.
Context {S : Type}.
Variable client : Client S.
Variable textusIndex : string.

(** [storeBibliographicReferences]: the error, if any, is logged and
    passed on. *)
Definition storeBibliographicReferences {R} (refs : list JsVal)
    (callback : option Err -> World S -> R) (w : World S) : R :=
  indexArray client textusIndex "bibjson" refs (fun err => callback err) w.

End Writes.

Arguments storeBibliographicReferences {S} client textusIndex {R}.

(** The hits of the examples: the text records of "the hello " that the
    window (2, 5) selects, out of order, and a typography annotation. *)
Definition example_hits : list Hit :=
  [ {| hit_type := "text"; hit_id := "c2";
       hit_source :=
         chunk_object "t1" {| chunk_text := " hello"; chunk_offset := 3 |} |};
    {| hit_type := "typography"; hit_id := "y1";
       hit_source := <["css"%string := VStr "em"]> (stored_record "t1" 4 9) |};
    {| hit_type := "text"; hit_id := "c1";
       hit_source :=
         chunk_object "t1" {| chunk_text := "the"; chunk_offset := 0 |} |} ].

Definition example_search : Script :=
  {| script_index := [];
     script_search := inr example_hits;
     script_get := inr ∅;
     script_refresh := None |}.

(** The summary entry made of a hit. *)
Definition summary_of (hit : Hit) : Summary :=
  {| sum_title := property (hit_source hit) "title";
     sum_owners := property (hit_source hit) "owners";
     sum_date := property (hit_source hit) "date" |}.

(** The hits with a given id. *)
Definition hits_with_id (id : string) (hits : list Hit) : list Hit :=
  List.filter (fun hit => String.eqb (hit_id hit) id) hits.

(** An annotation object as [importData] leaves it: with its [textId]
    set. *)
Definition stamped (textId : string) (h : Heap) (l : loc) : option Obj :=
  <["textId"%string := VStr textId]> <$> h !! l.

(** The records [importData] sets out to write after the structure record:
    one text record per chunk, then the semantics annotations, then the
    typography annotations. *)
Definition import_records (textId : string) (h : Heap) (chunks : list Chunk)
    (data : ImportData) : list (string * option Obj) :=
  map (fun c => ("text"%string, Some (chunk_object textId c))) chunks
  ++ map (fun l => ("semantics"%string, stamped textId h l)) (data_semantics data)
  ++ map (fun l => ("typography"%string, stamped textId h l)) (data_typography data).

(** The first write fails. *)
Definition first_write_fails : Script :=
  {| script_index := [inl boom];
     script_search := inr [];
     script_get := inr ∅;
     script_refresh := None |}.

(** An import of a text without a space. *)
Definition example_token_data : ImportData :=
  {| data_metadata := 1%positive;
     data_text := [ {| part_sequence := 0; part_text := "hello" |} ];
     data_semantics := [];
     data_typography := [] |}.

(** A text record as [fetchText] can read it: its [text] is a string and
    its [start] a number (its [end] is not looked at). *)
Definition text_record (o : Obj) : Prop :=
  (exists s : string, o !! "text"%string = Some (VStr s)) /\
  (exists n : Z, o !! "start"%string = Some (VNum n)).

(** * Properties *)

(** ** Strings *)

Section StringFacts.
Import JsString.

Lemma app_cons (a : ascii) (s t : string) :
  String a s +:+ t = String a (s +:+ t).
Proof. reflexivity. Qed.

Lemma length_app (s t : string) :
  String.length (s +:+ t) = (String.length s + String.length t)%nat.
Proof.
  induction s as [|a s IH]; [reflexivity |].
  rewrite app_cons. simpl. now rewrite IH.
Qed.

Lemma len_app (s t : string) : len (s +:+ t) = len s + len t.
Proof. unfold len. rewrite length_app. lia. Qed.

Lemma len_nonneg (s : string) : 0 <= len s.
Proof. unfold len. lia. Qed.

Lemma len_zero (s : string) : len s = 0 -> s = EmptyString.
Proof. destruct s; [reflexivity | unfold len; simpl; lia]. Qed.

Lemma app_empty_r (s : string) : s +:+ "" = s.
Proof.
  induction s as [|a s IH]; [reflexivity |]. now rewrite app_cons, IH.
Qed.

Lemma app_assoc_str (s t u : string) : (s +:+ t) +:+ u = s +:+ (t +:+ u).
Proof.
  induction s as [|a s IH]; [reflexivity |]. now rewrite !app_cons, IH.
Qed.

Lemma take_drop (n : nat) (s : string) : take n s +:+ drop n s = s.
Proof.
  revert s. induction n as [|n IH]; intros [|a s]; simpl; try reflexivity.
  now rewrite app_cons, IH.
Qed.

Lemma take_all (n : nat) (s : string) :
  (String.length s <= n)%nat -> take n s = s.
Proof.
  revert s. induction n as [|n IH]; intros [|a s]; simpl; intros Hn;
    try reflexivity; try lia.
  rewrite IH; [reflexivity | lia].
Qed.

Lemma length_take (n : nat) (s : string) :
  String.length (take n s) = Nat.min n (String.length s).
Proof.
  revert s. induction n as [|n IH]; intros [|a s]; simpl; try reflexivity.
  now rewrite IH.
Qed.

Lemma length_drop (n : nat) (s : string) :
  String.length (drop n s) = (String.length s - n)%nat.
Proof.
  revert s. induction n as [|n IH]; intros [|a s]; simpl; try reflexivity.
  apply IH.
Qed.

Lemma drop_get (n : nat) (s : string) (c : ascii) :
  String.get n s = Some c -> exists t, drop n s = String c t.
Proof.
  revert s. induction n as [|n IH]; intros [|a s]; simpl; try discriminate.
  - intros [= ->]. now exists s.
  - apply IH.
Qed.

(** The two calls of [substring] in the chunking loop, for a split point
    inside the text. *)
Lemma substring_prefix (s : string) (k : Z) :
  0 <= k <= len s -> substring s 0 k = take (Z.to_nat k) s.
Proof.
  intros Hk. unfold substring.
  replace (Z.min (Z.max 0 0) (len s)) with 0 by (pose proof (len_nonneg s); lia).
  replace (Z.min (Z.max k 0) (len s)) with k by lia.
  replace (Z.min 0 k) with 0 by lia. replace (Z.max 0 k) with k by lia.
  now rewrite Z.sub_0_r.
Qed.

Lemma substring_suffix (s : string) (k : Z) :
  0 <= k <= len s -> substring_from s k = drop (Z.to_nat k) s.
Proof.
  intros Hk. unfold substring_from, substring.
  replace (Z.min (Z.max k 0) (len s)) with k by lia.
  replace (Z.min (Z.max (len s) 0) (len s)) with (len s) by lia.
  replace (Z.min k (len s)) with k by lia.
  replace (Z.max k (len s)) with (len s) by lia.
  apply take_all. rewrite length_drop. unfold len in *. lia.
Qed.

Lemma substr_whole (s : string) : substr s 0 (len s) = s.
Proof.
  unfold substr. pose proof (len_nonneg s) as Hl.
  replace (0 <? 0) with false by reflexivity.
  replace (Z.min 0 (len s)) with 0 by lia.
  replace (Z.min (Z.max (len s) 0) (len s)) with (len s) by lia.
  replace (Z.min (0 + len s) (len s)) with (len s) by lia.
  simpl. apply take_all. unfold len. lia.
Qed.

(** What the scan computes: either nothing was found and no index of [s]
    up to [start] holds [c], or the answer is the last such index. *)
Lemma lastIndexOf_scan_spec (c : ascii) (start : Z) (s : string) (i found : Z) :
  (lastIndexOf_scan c start s i found = found /\
   forall k : nat, i + Z.of_nat k <= start -> String.get k s <> Some c)
  \/
  (exists k : nat,
      lastIndexOf_scan c start s i found = i + Z.of_nat k /\
      i + Z.of_nat k <= start /\
      String.get k s = Some c /\
      forall k' : nat, (k < k')%nat -> i + Z.of_nat k' <= start ->
                       String.get k' s <> Some c).
Proof.
  revert i found. induction s as [|a s IH]; intros i found; simpl.
  - left. split; [reflexivity | intros k _; now destruct k].
  - destruct (IH (i + 1)
                (if (i <=? start) && Ascii.eqb a c then i else found))
      as [[Hr Hnone] | (k & Hr & Hk & Hget & Hmax)].
    + destruct ((i <=? start) && Ascii.eqb a c) eqn:Hc.
      * apply andb_true_iff in Hc as [Hi Ha].
        apply Z.leb_le in Hi. apply Ascii.eqb_eq in Ha. subst a.
        right. exists 0%nat. rewrite Hr.
        split; [lia |]. split; [lia |]. split; [reflexivity |].
        intros [|k'] Hlt Hle; [lia |]. apply Hnone. lia.
      * left. split; [exact Hr |].
        intros [|k] Hle.
        -- apply andb_false_iff in Hc as [Hi | Ha].
           ++ apply Z.leb_gt in Hi. lia.
           ++ apply Ascii.eqb_neq in Ha. congruence.
        -- apply Hnone. lia.
    + right. exists (S k). rewrite Hr.
      split; [lia |]. split; [lia |]. split; [exact Hget |].
      intros [|k'] Hlt Hle; [lia |]. apply Hmax; lia.
Qed.

Lemma get_Some_lt (k : nat) (s : string) (c : ascii) :
  String.get k s = Some c -> (k < String.length s)%nat.
Proof.
  revert s. induction k as [|k IH]; intros [|a s]; simpl; try discriminate.
  - lia.
  - intros H. apply IH in H. lia.
Qed.

(** [lastIndexOf] answers -1, or an index of [s] not above [position]
    that holds [c]. *)
Lemma lastIndexOf_range (s : string) (c : ascii) (position : Z) :
  lastIndexOf s c position = -1 \/
  (0 <= lastIndexOf s c position <= Z.max position 0 /\
   lastIndexOf s c position < len s /\
   String.get (Z.to_nat (lastIndexOf s c position)) s = Some c).
Proof.
  unfold lastIndexOf.
  destruct (lastIndexOf_scan_spec c (Z.min (Z.max position 0) (len s)) s 0 (-1))
    as [[Hr _] | (k & Hr & Hk & Hget & _)].
  - now left.
  - right. rewrite Z.add_0_l in Hr, Hk. rewrite Hr, Nat2Z.id.
    pose proof (get_Some_lt _ _ _ Hget). unfold len in *.
    repeat split; try lia. exact Hget.
Qed.

(** A text that begins with [c] always has an occurrence to find. *)
Lemma lastIndexOf_head (s : string) (c : ascii) (position : Z) :
  lastIndexOf (String c s) c position <> -1.
Proof.
  unfold lastIndexOf.
  destruct (lastIndexOf_scan_spec c
              (Z.min (Z.max position 0) (len (String c s))) (String c s) 0 (-1))
    as [[_ Hnone] | (k & Hr & _)].
  - exfalso. apply (Hnone 0%nat); [| reflexivity].
    pose proof (len_nonneg (String c s)). lia.
  - rewrite Hr. lia.
Qed.

(** -1 is answered exactly when no index up to [position] holds [c]. *)
Lemma lastIndexOf_none (s : string) (c : ascii) (position : Z) :
  lastIndexOf s c position = -1 <->
  forall k : nat, Z.of_nat k <= Z.max position 0 -> String.get k s <> Some c.
Proof.
  unfold lastIndexOf.
  destruct (lastIndexOf_scan_spec c (Z.min (Z.max position 0) (len s)) s 0 (-1))
    as [[Hr Hnone] | (k & Hr & Hk & Hget & _)].
  - split; [| intros _; exact Hr].
    intros _ k Hk Hget. pose proof (get_Some_lt _ _ _ Hget).
    apply (Hnone k); [unfold len; lia | exact Hget].
  - split.
    + rewrite Hr. lia.
    + intros Hnone. exfalso. apply (Hnone k); [lia | exact Hget].
Qed.

End StringFacts.

(** The string primitives on small inputs. *)
Example lastIndexOf_examples :
  JsString.lastIndexOf "the hello " " "%char 6 = 3 /\
  JsString.lastIndexOf " hello " " "%char 6 = 6 /\
  JsString.lastIndexOf " " " "%char 6 = 0 /\
  JsString.lastIndexOf "a b" " "%char (-4) = -1 /\
  JsString.lastIndexOf " ab" " "%char (-4) = 0.
Proof. repeat split. Qed.

Example substring_examples :
  JsString.substring "the hello " 0 3 = "the"%string /\
  JsString.substring_from "the hello " 3 = " hello "%string /\
  JsString.substring "abcdef" 4 2 = "cd"%string /\
  JsString.substr "abcdef" 2 3 = "cde"%string /\
  JsString.substr "abcdef" (-2) 5 = "ef"%string /\
  JsString.substr "abcdef" 4 (-1) = ""%string.
Proof. repeat split. Qed.

(** ** Chunking *)

Section Chunking.
Import JsString.

Lemma join_app (l k : list string) : join (l ++ k) = join l +:+ join k.
Proof.
  induction l as [|x l IH]; [reflexivity |].
  simpl. unfold join in *. simpl. now rewrite IH, app_assoc_str.
Qed.

Lemma join_cons (x : string) (l : list string) : join (x :: l) = x +:+ join l.
Proof. reflexivity. Qed.

(** What the loop has pushed when it is left. *)
Lemma chunkLoop_sound (maxSize : Z) (fuel : nat) :
  1 <= maxSize ->
  forall text offset result chunks,
    chunkLoop fuel maxSize text offset result = Some chunks ->
    exists new,
      chunks = result ++ new /\
      join (map chunk_text new) = text /\
      contiguous offset new /\
      bounded maxSize new.
Proof.
  intros Hmax. induction fuel as [|fuel IH]; intros text offset result chunks;
    [discriminate |].
  simpl. destruct (String.eqb_spec text "") as [-> | Hne].
  - intros [= <-]. exists []. rewrite app_nil_r. repeat split.
  - destruct (lastIndexOf_range text " "%char maxSize)
      as [Hr | (Hr & Hlt & Hget)].
    + rewrite Hr. simpl. apply IH.
    + destruct (Z.eqb_spec (lastIndexOf text " "%char maxSize) (-1)) as [|_];
        [lia |].
      destruct (Z.eqb_spec (lastIndexOf text " "%char maxSize) 0) as [Hz | Hnz].
      * destruct fuel as [|fuel]; [discriminate |]. simpl.
        intros [= <-].
        exists [{| chunk_text := text; chunk_offset := offset |}].
        split; [reflexivity |]. split; [simpl; apply app_empty_r |].
        split; [now simpl |]. simpl. split; [| exact I].
        right. now split.
      * set (k := lastIndexOf text " "%char maxSize) in *.
        intros Hrun. apply IH in Hrun as (new & -> & Hjoin & Hcont & Hb).
        rewrite substring_suffix in Hjoin by lia.
        rewrite substring_prefix by lia.
        assert (Hlen : len (take (Z.to_nat k) text) = k).
        { unfold len in *. rewrite length_take. lia. }
        exists ({| chunk_text := take (Z.to_nat k) text;
                   chunk_offset := offset |} :: new).
        split; [now rewrite <- app_assoc |].
        split; [cbn [map chunk_text]; rewrite join_cons, Hjoin; apply take_drop |].
        split; [simpl; now rewrite Hlen |].
        simpl. split; [| exact Hb]. left. rewrite Hlen. lia.
Qed.

(** More fuel does not change what the loop returns. *)
Lemma chunkLoop_fuel_mono (maxSize : Z) (fuel fuel' : nat) :
  (fuel <= fuel')%nat ->
  forall text offset result chunks,
    chunkLoop fuel maxSize text offset result = Some chunks ->
    chunkLoop fuel' maxSize text offset result = Some chunks.
Proof.
  revert fuel'. induction fuel as [|fuel IH]; intros fuel' Hle text offset result
    chunks; [discriminate |].
  destruct fuel' as [|fuel']; [lia |]. simpl.
  destruct (String.eqb text ""); [trivial |].
  destruct (lastIndexOf text " "%char maxSize =? -1); [apply IH; lia |].
  destruct (lastIndexOf text " "%char maxSize =? 0); apply IH; lia.
Qed.

(** The loop is left once the text is used up, which happens when the
    text is empty or holds a space at or before index [maxSize]: after
    every split the rest begins with that space. *)
Lemma chunkLoop_terminates (maxSize : Z) (n : nat) :
  forall text offset result,
    (String.length text <= n)%nat ->
    text = "" \/ lastIndexOf text " "%char maxSize <> -1 ->
    exists chunks, chunkLoop (S n) maxSize text offset result = Some chunks.
Proof.
  induction n as [|n IH]; intros text offset result Hlen Hsp.
  - destruct text; [| simpl in Hlen; lia]. simpl. eauto.
  - simpl. destruct (String.eqb_spec text "") as [-> | Hne]; [eauto |].
    destruct Hsp as [-> | Hsp]; [congruence |].
    destruct (lastIndexOf_range text " "%char maxSize)
      as [Hr | (Hr & Hlt & Hget)]; [congruence |].
    destruct (Z.eqb_spec (lastIndexOf text " "%char maxSize) (-1)) as [|_];
      [congruence |].
    destruct (Z.eqb_spec (lastIndexOf text " "%char maxSize) 0) as [Hz | Hnz].
    + destruct n; simpl; eauto.
    + set (k := lastIndexOf text " "%char maxSize) in *.
      rewrite substring_suffix by lia.
      destruct (drop_get _ _ _ Hget) as (t & Ht).
      apply IH.
      * rewrite length_drop. unfold len in *. lia.
      * right. rewrite Ht. apply lastIndexOf_head.
Qed.

(** The loop is never left when the text is not empty and holds no space
    at or before index [maxSize]: the iteration changes nothing. *)
Lemma chunkLoop_diverges (maxSize : Z) (text : string) (offset : Z)
    (result : list Chunk) :
  text <> "" ->
  lastIndexOf text " "%char maxSize = -1 ->
  forall fuel, chunkLoop fuel maxSize text offset result = None.
Proof.
  intros Hne Hr fuel. induction fuel as [|fuel IH]; [reflexivity |].
  simpl. destruct (String.eqb_spec text ""); [congruence |].
  rewrite Hr. exact IH.
Qed.

End Chunking.

Section ChunkingClaims.
Import JsString.

Lemma drop_app_length (s t : string) : drop (String.length s) (s +:+ t) = t.
Proof. induction s as [|a s IH]; [reflexivity | exact IH]. Qed.

Lemma contiguous_snoc (o : Z) (pre : list Chunk) (c : Chunk) :
  contiguous o (pre ++ [c]) ->
  chunk_offset c = o + len (join (map chunk_text pre)).
Proof.
  revert o. induction pre as [|p pre IH]; intros o Hc;
    cbn [app contiguous map] in *.
  - destruct Hc as [-> _]. unfold len. simpl. lia.
  - destruct Hc as [_ H]. apply IH in H. rewrite H, join_cons, len_app. lia.
Qed.

(** The last chunk of a contiguous split is what is left of the merged
    text at its offset. *)
Lemma last_chunk_is_suffix (pre : list Chunk) (c : Chunk) :
  contiguous 0 (pre ++ [c]) ->
  suffix_at (join (map chunk_text (pre ++ [c]))) c = chunk_text c.
Proof.
  intros Hc. apply contiguous_snoc in Hc. unfold suffix_at.
  rewrite map_app, join_app. cbn [map]. rewrite join_cons, app_empty_r.
  rewrite substring_suffix.
  - rewrite Hc, Z.add_0_l. unfold len. rewrite Nat2Z.id.
    apply drop_app_length.
  - rewrite Hc, len_app.
    pose proof (len_nonneg (join (map chunk_text pre))).
    pose proof (len_nonneg (chunk_text c)). lia.
Qed.

Lemma bounded_lookup (maxSize : Z) (chunks : list Chunk) (i : nat) (c : Chunk) :
  bounded maxSize chunks ->
  chunks !! i = Some c ->
  len (chunk_text c) <= maxSize \/
  (S i = length chunks /\ lastIndexOf (chunk_text c) " "%char maxSize = 0).
Proof.
  revert i. induction chunks as [|d chunks IH]; intros i; [discriminate |].
  intros [Hd Hb]. destruct i as [|i]; simpl.
  - intros [= ->]. destruct Hd as [Hd | [-> Hd]]; [now left | now right].
  - intros Hi. destruct (IH i Hb Hi) as [H | [H1 H2]]; [now left |].
    right. split; [congruence | exact H2].
Qed.

(** Whenever [createTextChunks] returns, its chunks put together are the
    merged text and they lie end to end from offset 0. *)
Lemma createTextChunks_reassembles (fuel : nat) (maxSize : Z)
    (parts : list TextPart) (chunks : list Chunk) :
  1 <= maxSize ->
  createTextChunks fuel maxSize parts = Some chunks ->
  join (map chunk_text chunks) = mergeParts parts /\ contiguous 0 chunks.
Proof.
  intros Hmax Hrun.
  apply chunkLoop_sound in Hrun as (new & -> & Hjoin & Hcont & _); [| exact Hmax].
  now split.
Qed.

(** [createTextChunks] returns nothing, whatever the fuel, for a merged
    text that is not empty and has no space at or before [maxSize]. *)
Lemma createTextChunks_diverges (maxSize : Z) (parts : list TextPart) :
  mergeParts parts <> "" ->
  lastIndexOf (mergeParts parts) " "%char maxSize = -1 ->
  forall fuel, createTextChunks fuel maxSize parts = None.
Proof. intros Hne Hr fuel. now apply chunkLoop_diverges. Qed.

(** C2 (as stated, refuted): on the parts "hello " (sequence 1) and
    "the " (sequence 0) with [maxSize] 6, no run of [createTextChunks]
    returns the two chunks "the " at 0 and "hello " at 4. *)
Lemma createTextChunks_example_not_two_chunks :
  ~ exists fuel,
      createTextChunks fuel 6
        [ {| part_sequence := 1; part_text := "hello " |};
          {| part_sequence := 0; part_text := "the " |} ]
      = Some [ {| chunk_text := "the "; chunk_offset := 0 |};
               {| chunk_text := "hello "; chunk_offset := 4 |} ].
Proof.
  intros [fuel Hrun].
  destruct (Nat.le_gt_cases 4 fuel) as [Hle | Hlt].
  - assert (H4 : createTextChunks 4 6
              [ {| part_sequence := 1; part_text := "hello " |};
                {| part_sequence := 0; part_text := "the " |} ]
            = Some [ {| chunk_text := "the"; chunk_offset := 0 |};
                     {| chunk_text := " hello"; chunk_offset := 3 |};
                     {| chunk_text := " "; chunk_offset := 9 |} ])
      by reflexivity.
    apply (chunkLoop_fuel_mono 6 4 fuel Hle) in H4.
    unfold createTextChunks in Hrun. rewrite H4 in Hrun. discriminate.
  - do 4 (destruct fuel as [|fuel]; [discriminate |]). lia.
Qed.

(** C2 (amended): the parts "hello " (sequence 1) and "the " (sequence 0)
    are merged in ascending sequence order into "the hello ", and with
    [maxSize] 6 [createTextChunks] returns exactly the three chunks
    "the" at 0, " hello" at 3 and " " at 9: each split is made before the
    space found, which opens the next chunk. *)
Theorem createTextChunks_example :
  mergeParts [ {| part_sequence := 1; part_text := "hello " |};
               {| part_sequence := 0; part_text := "the " |} ]
  = "the hello "%string /\
  forall k : nat,
    createTextChunks (4 + k) 6
      [ {| part_sequence := 1; part_text := "hello " |};
        {| part_sequence := 0; part_text := "the " |} ]
    = Some [ {| chunk_text := "the"; chunk_offset := 0 |};
             {| chunk_text := " hello"; chunk_offset := 3 |};
             {| chunk_text := " "; chunk_offset := 9 |} ].
Proof.
  split; [reflexivity |]. intros k.
  apply (chunkLoop_fuel_mono 6 4 (4 + k)); [lia | reflexivity].
Qed.

(** C3 (as stated, refuted): a chunk longer than [maxSize] is emitted
    from a suffix that does hold a space at or before index [maxSize]:
    the text " abcdefgh" with [maxSize] 3 comes back as one chunk of 9
    characters, its space being at index 0. *)
Lemma createTextChunks_long_chunk_with_space :
  ~ forall (parts : list TextPart) (maxSize : Z) (fuel : nat)
           (chunks : list Chunk) (c : Chunk),
      1 <= maxSize ->
      createTextChunks fuel maxSize parts = Some chunks ->
      In c chunks ->
      len (chunk_text c) <= maxSize \/
      lastIndexOf (suffix_at (mergeParts parts) c) " "%char maxSize = -1.
Proof.
  intros H.
  specialize (H [ {| part_sequence := 0; part_text := " abcdefgh" |} ] 3 2%nat
                [ {| chunk_text := " abcdefgh"; chunk_offset := 0 |} ]
                {| chunk_text := " abcdefgh"; chunk_offset := 0 |}).
  destruct H as [H | H]; [lia | reflexivity | now left | |].
  - vm_compute in H. now apply H.
  - vm_compute in H. discriminate.
Qed.

(** C3 (amended): for every [maxSize >= 1], every chunk [createTextChunks]
    emits has a text of at most [maxSize] characters, with the sole
    exception of a last chunk that is the whole remaining suffix, emitted
    when the space found in that suffix is at index 0; and the function
    does return, given enough fuel, for every merged text that is empty or
    holds a space at or before index [maxSize]. *)
Theorem createTextChunks_size_bound (parts : list TextPart) (maxSize : Z) :
  1 <= maxSize ->
  (forall (fuel : nat) (chunks : list Chunk),
      createTextChunks fuel maxSize parts = Some chunks ->
      forall (i : nat) (c : Chunk),
        chunks !! i = Some c ->
        len (chunk_text c) <= maxSize \/
        (S i = length chunks /\
         chunk_text c = suffix_at (mergeParts parts) c /\
         lastIndexOf (suffix_at (mergeParts parts) c) " "%char maxSize = 0))
  /\
  (mergeParts parts = "" \/
   lastIndexOf (mergeParts parts) " "%char maxSize <> -1 ->
   exists chunks : list Chunk,
     forall fuel : nat,
       (String.length (mergeParts parts) < fuel)%nat ->
       createTextChunks fuel maxSize parts = Some chunks).
Proof.
  intros Hmax. split.
  - intros fuel chunks Hrun i c Hi.
    apply chunkLoop_sound in Hrun as (new & -> & Hjoin & Hcont & Hb);
      [| exact Hmax].
    rewrite app_nil_l in Hi |- *.
    destruct (bounded_lookup _ _ _ _ Hb Hi) as [H | [Hlast Hzero]];
      [now left | right].
    assert (Hnew : new = firstn i new ++ [c]).
    { rewrite <- (take_S_r _ _ _ Hi). symmetry. apply take_ge. lia. }
    assert (Hsuf : suffix_at (mergeParts parts) c = chunk_text c).
    { rewrite <- Hjoin, Hnew. apply last_chunk_is_suffix. now rewrite <- Hnew. }
    rewrite Hsuf. now repeat split.
  - intros Hsp.
    destruct (chunkLoop_terminates maxSize (String.length (mergeParts parts))
                (mergeParts parts) 0 [] (Nat.le_refl _) Hsp) as (chunks & Hrun).
    exists chunks. intros fuel Hfuel.
    apply (chunkLoop_fuel_mono maxSize (S (String.length (mergeParts parts))));
      [lia | exact Hrun].
Qed.

Lemma createTextChunks_size_bound_witness :
  1 <= 3 /\
  (forall (fuel : nat) (chunks : list Chunk),
      createTextChunks fuel 3
        [ {| part_sequence := 0; part_text := "ab cd efgh" |} ] = Some chunks ->
      forall (i : nat) (c : Chunk),
        chunks !! i = Some c ->
        len (chunk_text c) <= 3 \/
        (S i = length chunks /\
         chunk_text c
         = suffix_at
             (mergeParts [ {| part_sequence := 0; part_text := "ab cd efgh" |} ]) c /\
         lastIndexOf
           (suffix_at
              (mergeParts [ {| part_sequence := 0; part_text := "ab cd efgh" |} ]) c)
           " "%char 3 = 0)).
Proof.
  split; [lia |].
  apply (createTextChunks_size_bound
           [ {| part_sequence := 0; part_text := "ab cd efgh" |} ] 3).
  lia.
Defined.

(** The text "hello" has no space to find, wherever the search starts. *)
Lemma lastIndexOf_hello (position : Z) :
  lastIndexOf "hello" " "%char position = -1.
Proof.
  apply lastIndexOf_none. intros k _.
  do 5 (destruct k as [|k]; [discriminate |]). discriminate.
Qed.

(** C4 (the code departs from the claim): for the single part "hello" the
    merged text has no space, and [createTextChunks] returns no chunks at
    all, whatever [maxSize] and whatever the fuel: the loop is never left,
    so there are no chunks to put together. *)
Theorem createTextChunks_single_token_never_returns :
  forall (fuel : nat) (maxSize : Z),
    createTextChunks fuel maxSize [ {| part_sequence := 0; part_text := "hello" |} ]
    = None.
Proof.
  intros fuel maxSize.
  apply createTextChunks_diverges; [discriminate | apply lastIndexOf_hello].
Qed.

End ChunkingClaims.

(** ** Sorting *)

Section SortFacts.
Context {A : Type} (key : A -> Z).

Lemma sort_insert_perm (x : A) (l : list A) : sort_insert key x l ≡ₚ x :: l.
Proof.
  induction l as [|y l IH]; simpl; [reflexivity |].
  destruct (key x <=? key y); [reflexivity |].
  rewrite IH. apply Permutation_swap.
Qed.

Lemma sort_by_perm (l : list A) : sort_by key l ≡ₚ l.
Proof.
  induction l as [|x l IH]; simpl; [reflexivity |].
  unfold sort_by in *. simpl. now rewrite sort_insert_perm, IH.
Qed.

Lemma sort_insert_sorted (x : A) (l : list A) :
  StronglySorted (fun a b => key a <= key b) l ->
  StronglySorted (fun a b => key a <= key b) (sort_insert key x l).
Proof.
  induction 1 as [|y l Hs IH Hy]; simpl.
  - constructor; [constructor | constructor].
  - destruct (Z.leb_spec (key x) (key y)) as [Hle | Hgt].
    + constructor; [now constructor |].
      constructor; [exact Hle |].
      eapply Forall_impl; [exact Hy |]. simpl. intros z Hz. lia.
    + constructor; [exact IH |].
      rewrite sort_insert_perm. constructor; [lia | exact Hy].
Qed.

Lemma sort_by_sorted (l : list A) :
  StronglySorted (fun a b => key a <= key b) (sort_by key l).
Proof.
  induction l as [|x l IH]; [constructor |].
  apply sort_insert_sorted, IH.
Qed.

Lemma StronglySorted_filter_keep (R : relation A) (P : A -> Prop)
    `{forall x, Decision (P x)} (l : list A) :
  StronglySorted R l -> StronglySorted R (filter P l).
Proof.
  induction 1 as [|x l Hs IH Hx]; [constructor |].
  rewrite filter_cons. destruct (decide (P x)); [| exact IH].
  constructor; [exact IH |].
  apply Forall_forall. intros y Hy.
  apply list_elem_of_filter in Hy as [_ Hy].
  rewrite Forall_forall in Hx. now apply Hx.
Qed.

(** In a list sorted strictly by key, the key determines the element. *)
Lemma strictly_sorted_key_inj (l : list A) (x y : A) :
  StronglySorted (fun a b => key a < key b) l ->
  x ∈ l -> y ∈ l -> key x = key y -> x = y.
Proof.
  induction 1 as [|z l Hs IH Hz]; intros Hx Hy Hk.
  - now apply elem_of_nil in Hx.
  - rewrite Forall_forall in Hz.
    apply elem_of_cons in Hx as [-> | Hx]; apply elem_of_cons in Hy as [-> | Hy].
    + reflexivity.
    + apply Hz in Hy. lia.
    + apply Hz in Hx. lia.
    + now apply IH.
Qed.

Lemma strictly_sorted_weaken (l : list A) :
  StronglySorted (fun a b => key a < key b) l ->
  StronglySorted (fun a b => key a <= key b) l.
Proof.
  induction 1 as [|z l Hs IH Hz]; constructor; [exact IH |].
  eapply Forall_impl; [exact Hz |]. simpl. intros; lia.
Qed.

End SortFacts.

(** ** Reconstruction *)

Section Reconstruction.
Import JsString.

Lemma tiles_starts (o : Z) (records : list TextChunk) (n : Z) :
  tiles o records n -> Forall (fun c => o <= tc_start c) records.
Proof.
  revert o. induction records as [|c records IH]; intros o; [constructor |].
  intros (Hs & He & Hrest). constructor; [lia |].
  eapply Forall_impl; [exact (IH _ Hrest) |]. simpl. intros d Hd.
  pose proof (len_nonneg (tc_text c)). lia.
Qed.

Lemma tiles_len (o : Z) (records : list TextChunk) (n : Z) :
  tiles o records n -> n = o + len (join (map tc_text records)).
Proof.
  revert o. induction records as [|c records IH]; intros o Ht;
    cbn [tiles map] in *.
  - unfold len. simpl. lia.
  - destruct Ht as (Hs & He & Hrest). apply IH in Hrest.
    rewrite join_cons, len_app. lia.
Qed.

(** Records without text do not show in the joined text. *)
Lemma join_skip_empty (records : list TextChunk) :
  join (map tc_text (filter (fun c => tc_text c <> "") records))
  = join (map tc_text records).
Proof.
  induction records as [|c records IH]; [reflexivity |].
  rewrite filter_cons. cbn [map]. rewrite join_cons.
  destruct (decide (tc_text c <> "")) as [Hne | He].
  - cbn [map]. now rewrite join_cons, IH.
  - assert (Hc : tc_text c = "").
    { destruct (string_dec (tc_text c) "") as [Hc | Hc]; [exact Hc | contradiction]. }
    rewrite Hc. exact IH.
Qed.

(** The records with text of a tiling have strictly increasing starts. *)
Lemma tiles_strict (o : Z) (records : list TextChunk) (n : Z) :
  tiles o records n ->
  StronglySorted (fun a b => tc_start a < tc_start b)
    (filter (fun c => tc_text c <> "") records).
Proof.
  revert o. induction records as [|c records IH]; intros o; [constructor |].
  intros (Hs & He & Hrest). rewrite filter_cons.
  destruct (decide (tc_text c <> "")) as [Hne | _]; [| exact (IH _ Hrest)].
  constructor; [exact (IH _ Hrest) |].
  apply Forall_forall. intros d Hd.
  apply list_elem_of_filter in Hd as [_ Hd].
  pose proof (tiles_starts _ _ _ Hrest) as Hge.
  rewrite Forall_forall in Hge. apply Hge in Hd.
  assert (0 < len (tc_text c)).
  { pose proof (len_nonneg (tc_text c)).
    destruct (Z.eq_dec (len (tc_text c)) 0) as [Hz | Hz]; [| lia].
    apply len_zero in Hz. congruence. }
  lia.
Qed.

(** Sorting by start any arrangement of a tiling joins to the text of the
    tiling. *)
Lemma join_sorted_tiling (records ordered : list TextChunk) (n : Z) :
  records ≡ₚ ordered ->
  tiles 0 ordered n ->
  join (map tc_text (sort_by tc_start records)) = join (map tc_text ordered).
Proof.
  intros Hperm Htiles.
  rewrite <- (join_skip_empty (sort_by _ _)), <- (join_skip_empty ordered).
  f_equal. f_equal.
  pose proof (tiles_strict _ _ _ Htiles) as Hstrict.
  apply (StronglySorted_unique_strong (fun a b => tc_start a <= tc_start b)).
  - intros x y Hx Hy Hxy Hyx.
    apply (strictly_sorted_key_inj tc_start _ x y Hstrict); [| exact Hy | lia].
    now rewrite (sort_by_perm tc_start records), Hperm in Hx.
  - apply StronglySorted_filter_keep, sort_by_sorted.
  - now apply strictly_sorted_weaken.
  - now rewrite sort_by_perm, Hperm.
Qed.

(** The first record after sorting a tiling from 0 starts at 0. *)
Lemma sorted_tiling_head (records ordered : list TextChunk) (n : Z)
    (c : TextChunk) (rest : list TextChunk) :
  records ≡ₚ ordered ->
  tiles 0 ordered n ->
  sort_by tc_start records = c :: rest ->
  tc_start c = 0.
Proof.
  intros Hperm Htiles Hsort.
  assert (Hps : c :: rest ≡ₚ ordered) by now rewrite <- Hsort, sort_by_perm.
  pose proof (sort_by_sorted tc_start records) as Hsorted.
  rewrite Hsort in Hsorted. apply StronglySorted_inv in Hsorted as [_ Hc].
  rewrite Forall_forall in Hc.
  pose proof (tiles_starts _ _ _ Htiles) as Hge. rewrite Forall_forall in Hge.
  assert (Hlow : 0 <= tc_start c).
  { apply Hge. rewrite <- Hps. now left. }
  destruct ordered as [|h ordered].
  { symmetry in Hps. now apply Permutation_nil_cons in Hps. }
  destruct Htiles as (Hh & _).
  assert (Hin : h ∈ c :: rest) by (rewrite Hps; now left).
  apply elem_of_cons in Hin as [-> | Hin]; [exact Hh |].
  apply Hc in Hin. lia.
Qed.

(** C6: for every non-empty collection of records that covers [0, n) of
    an original text contiguously and exactly, in whatever order the
    records come, [joinTextChunksAndTrim 0 n] returns the original text
    with start 0 and end [n], and [joinTextChunksAndTrim null null]
    returns the records' texts joined in ascending start order, which is
    the original text, with neither start nor end. *)
Theorem joinTextChunksAndTrim_covering (original : string) (n : Z)
    (records : list TextChunk) :
  records <> [] ->
  covers original n records ->
  joinTextChunksAndTrim (Some 0) (Some n) records
  = {| j_text := original; j_start := Some 0; j_end := Some n |} /\
  joinTextChunksAndTrim None None records
  = {| j_text := original; j_start := None; j_end := None |} /\
  j_text (joinTextChunksAndTrim None None records)
  = join (map tc_text (sort_by tc_start records)).
Proof.
  intros Hne (ordered & Hperm & Htiles & Horig).
  pose proof (join_sorted_tiling _ _ _ Hperm Htiles) as Hjoin.
  rewrite Horig in Hjoin.
  pose proof (tiles_len _ _ _ Htiles) as Hlen. rewrite Horig in Hlen.
  destruct records as [|r records]; [congruence |].
  unfold joinTextChunksAndTrim. rewrite Hjoin.
  split; [| split; reflexivity].
  destruct (sort_by tc_start (r :: records)) as [|c rest] eqn:Hsort.
  { pose proof (sort_by_perm tc_start (r :: records)) as Hp.
    rewrite Hsort in Hp. now apply Permutation_nil_cons in Hp. }
  rewrite (sorted_tiling_head _ _ _ _ _ Hperm Htiles Hsort).
  replace (0 - 0) with 0 by lia. replace (n - 0) with (len original) by lia.
  now rewrite substr_whole.
Qed.

Lemma joinTextChunksAndTrim_covering_witness :
  joinTextChunksAndTrim (Some 0) (Some 10)
    [ {| tc_text := " hello"; tc_start := 3; tc_end := 9 |};
      {| tc_text := " "; tc_start := 9; tc_end := 10 |};
      {| tc_text := "the"; tc_start := 0; tc_end := 3 |} ]
  = {| j_text := "the hello "; j_start := Some 0; j_end := Some 10 |} /\
  joinTextChunksAndTrim None None
    [ {| tc_text := " hello"; tc_start := 3; tc_end := 9 |};
      {| tc_text := " "; tc_start := 9; tc_end := 10 |};
      {| tc_text := "the"; tc_start := 0; tc_end := 3 |} ]
  = {| j_text := "the hello "; j_start := None; j_end := None |}.
Proof.
  assert (Hcov : covers "the hello " 10
            [ {| tc_text := " hello"; tc_start := 3; tc_end := 9 |};
              {| tc_text := " "; tc_start := 9; tc_end := 10 |};
              {| tc_text := "the"; tc_start := 0; tc_end := 3 |} ]).
  { exists [ {| tc_text := "the"; tc_start := 0; tc_end := 3 |};
             {| tc_text := " hello"; tc_start := 3; tc_end := 9 |};
             {| tc_text := " "; tc_start := 9; tc_end := 10 |} ].
    split; [| split; [simpl; repeat split | reflexivity]].
    apply Permutation_sym, perm_trans with
      (l' := [ {| tc_text := " hello"; tc_start := 3; tc_end := 9 |};
               {| tc_text := "the"; tc_start := 0; tc_end := 3 |};
               {| tc_text := " "; tc_start := 9; tc_end := 10 |} ]).
    - apply perm_swap.
    - apply perm_skip, perm_swap. }
  apply joinTextChunksAndTrim_covering in Hcov as (H1 & H2 & _); [| discriminate].
  split; [exact H1 | exact H2].
Defined.

(** A window inside one stored chunk: the chunk from 3 to 9 of
    "the hello " is the only one the window (4, 9) overlaps. *)
Example joinTextChunksAndTrim_inner_window :
  joinTextChunksAndTrim (Some 4) (Some 9)
    [ {| tc_text := " hello"; tc_start := 3; tc_end := 9 |} ]
  = {| j_text := "hello"; j_start := Some 4; j_end := Some 9 |}.
Proof. reflexivity. Qed.

(** C8: on an empty collection [joinTextChunksAndTrim] returns exactly
    [{text: "", start: 0, end: 0}], whatever window was asked for, the
    null/null request included. *)
Theorem joinTextChunksAndTrim_empty (start end_ : option Z) :
  joinTextChunksAndTrim start end_ []
  = {| j_text := ""; j_start := Some 0; j_end := Some 0 |}.
Proof. reflexivity. Qed.

End Reconstruction.

(** ** The range query *)

Section RangeQuery.

Lemma selects_buildRangeQuery (textusIndex textId : string) (start end_ : Z)
    (doc : Obj) :
  selects (buildRangeQuery textusIndex textId (Some start) (Some end_)) doc = true
  <->
  doc !! "textId"%string = Some (VStr textId) /\
  exists s e : Z,
    doc !! "start"%string = Some (VNum s) /\
    doc !! "end"%string = Some (VNum e) /\
    s < end_ /\ e >= start.
Proof.
  unfold selects, buildRangeQuery. cbn [q_must forallb clause_holds].
  rewrite !andb_true_iff.
  destruct (doc !! "textId"%string) as [[| | | |t| |]|];
    try (split; [intros (? & _); discriminate | intros ([=] & _)]).
  destruct (doc !! "start"%string) as [[| | |s| | |]|];
    try (split; [intros (_ & ? & _); discriminate
                | intros (_ & ? & ? & [=] & _)]).
  destruct (doc !! "end"%string) as [[| | |e| | |]|];
    try (split; [intros (_ & _ & ? & _); discriminate
                | intros (_ & ? & ? & _ & [=] & _)]).
  rewrite String.eqb_eq, Z.ltb_lt, Z.leb_le. split.
  - intros (-> & Hs & He & _). split; [reflexivity |].
    exists s, e. repeat split; lia.
  - intros ([= ->] & s' & e' & [= <-] & [= <-] & Hs & He).
    repeat split; lia.
Qed.

(** C7: the query [buildRangeQuery] builds for a text and a window
    (start, end) selects exactly the records of that text whose start is
    below the window's end and whose end is at or above the window's
    start; so a record from 5 to 15 is selected for the window (10, 12),
    and a record from 0 to 5 is not; the size of the result is capped at
    1000000. *)
Theorem buildRangeQuery_overlap (textusIndex textId : string) (start end_ : Z) :
  (forall doc : Obj,
      selects (buildRangeQuery textusIndex textId (Some start) (Some end_)) doc
      = true
      <->
      doc !! "textId"%string = Some (VStr textId) /\
      exists s e : Z,
        doc !! "start"%string = Some (VNum s) /\
        doc !! "end"%string = Some (VNum e) /\
        s < end_ /\ e >= start) /\
  selects (buildRangeQuery textusIndex textId (Some 10) (Some 12))
    (stored_record textId 5 15) = true /\
  selects (buildRangeQuery textusIndex textId (Some 10) (Some 12))
    (stored_record textId 0 5) = false /\
  q_size (buildRangeQuery textusIndex textId (Some start) (Some end_)) = 1000000.
Proof.
  split; [apply selects_buildRangeQuery |].
  split; [| split; [| reflexivity]].
  - apply selects_buildRangeQuery. split; [reflexivity |].
    exists 5, 15. repeat split; lia.
  - apply not_true_is_false. intros H.
    apply selects_buildRangeQuery in H as (_ & s & e & _ & He & _ & Hge).
    unfold stored_record in He. simplify_map_eq. lia.
Qed.

End RangeQuery.


(** ** The indexing pipeline *)

Section Pipeline.
Context {S : Type} (client : Client S).

Lemma shifted_truthy (items : list JsVal) :
  Forall (fun item => truthy item = true) items -> shifted items = items.
Proof.
  induction 1 as [|item items Hitem _ IH]; [reflexivity |].
  simpl. now rewrite Hitem, IH.
Qed.

Lemma taken_truthy (lists : list Collection) :
  Forall (fun wrap => Forall (fun item => truthy item = true) (coll_list wrap)) lists ->
  taken lists = lists.
Proof.
  induction 1 as [|[type items] lists Hwrap _ IH]; [reflexivity |].
  unfold taken in *. cbn [map coll_type coll_list] in *.
  now rewrite IH, shifted_truthy.
Qed.

(** One collection: the writes go out one after the other in the order of
    the list, each after the answer to the one before it; the first error
    is handed to the callback and ends the run. *)
Lemma indexArray_run {R} (index type : string) (list : list JsVal)
    (callback : option Err -> World S -> R) (w : World S) :
  exists (log : Datatypes.list Attempt) (err : option Err) (w' : World S),
    indexArray client index type list callback w = callback err w' /\
    heap w' = heap w /\
    calls w' = calls w ++ map (attempt_call index (heap w)) log /\
    match err with
    | None =>
        map attempt_write log = map (pair type) (shifted list) /\
        Forall succeeded log
    | Some e =>
        exists done item rest,
          log = done ++ [(type, item, inl e)] /\
          Forall succeeded done /\
          map (pair type) (shifted list)
          = map attempt_write done ++ (type, item) :: rest
    end.
Proof.
  revert w. induction list as [|item list IH]; intros w; cbn [indexArray shifted].
  - exists [], None, w. rewrite app_nil_r. repeat split. constructor.
  - destruct (truthy item) eqn:Hitem.
    + unfold client_index.
      destruct (es_index client index type item (snapshot (heap w) item) None
                  (store w)) as [[e | res] s'] eqn:Hreply.
      * exists [(type, item, inl e)], (Some e). eexists.
        split; [reflexivity |]. split; [reflexivity |]. split; [reflexivity |].
        exists [], item, (map (pair type) (shifted list)).
        repeat split. constructor.
      * match goal with
        | |- context [indexArray _ _ _ _ _ ?w1] =>
            destruct (IH w1) as (log & err & w' & Hrun & Hheap & Hcalls & Hcase)
        end.
        exists ((type, item, inr res) :: log), err, w'.
        split; [exact Hrun |]. split; [exact Hheap |].
        split; [rewrite Hcalls; cbn [calls heap map]; now rewrite <- app_assoc |].
        destruct err as [e |].
        -- destruct Hcase as (done & item' & rest & -> & Hdone & Heq).
           exists ((type, item, inr res) :: done), item', rest.
           split; [reflexivity |].
           split; [constructor; [now exists res | exact Hdone] |].
           cbn [map]. now rewrite Heq.
        -- destruct Hcase as [Heq Hall]. split.
           ++ cbn [map]. now rewrite Heq.
           ++ constructor; [now exists res | exact Hall].
    + exists [], None, w. rewrite app_nil_r. repeat split. constructor.
Qed.

(** The collections: they are worked off in the supplied order, the first
    error ends the run and gets the type of its collection as its message. *)
Lemma indexArrays_run {R} (index : string) (lists : list Collection)
    (callback : option Err -> World S -> R) (w : World S) :
  exists (log : list Attempt) (err : option Err) (w' : World S),
    indexArrays client index lists callback w = callback err w' /\
    heap w' = heap w /\
    calls w' = calls w ++ map (attempt_call index (heap w)) log /\
    match err with
    | None =>
        map attempt_write log = supplied (taken lists) /\
        Forall succeeded log
    | Some e =>
        exists done type item e0 rest,
          log = done ++ [(type, item, inl e0)] /\
          Forall succeeded done /\
          supplied (taken lists) = map attempt_write done ++ (type, item) :: rest /\
          e = set_message e0 ("Error while indexing " ++ type)
    end.
Proof.
  revert w. induction lists as [|wrap lists IH]; intros w; cbn [indexArrays].
  - exists [], None, w. rewrite app_nil_r. repeat split. constructor.
  - match goal with
    | |- context [indexArray _ _ _ _ ?k w] =>
        destruct (indexArray_run index (coll_type wrap) (coll_list wrap) k w)
          as (log1 & err1 & w1 & Hrun1 & Hheap1 & Hcalls1 & Hcase1)
    end.
    cbv zeta. rewrite Hrun1. unfold supplied, taken. cbn [map concat coll_type coll_list].
    destruct err1 as [e0 |].
    + destruct Hcase1 as (done & item & rest & -> & Hdone & Heq).
      exists (done ++ [(coll_type wrap, item, inl e0)]),
        (Some (set_message e0 ("Error while indexing " ++ coll_type wrap))), w1.
      split; [reflexivity |]. split; [exact Hheap1 |]. split; [exact Hcalls1 |].
      exists done, (coll_type wrap), item, e0.
      eexists. split; [reflexivity |]. split; [exact Hdone |].
      split; [| reflexivity]. rewrite Heq, <- app_assoc. reflexivity.
    + destruct Hcase1 as [Heq1 Hall1].
      destruct (IH w1) as (log & err & w' & Hrun & Hheap & Hcalls & Hcase).
      exists (log1 ++ log), err, w'.
      split; [exact Hrun |]. split; [congruence |].
      split; [rewrite Hcalls, Hcalls1, Hheap1, map_app; now rewrite <- app_assoc |].
      destruct err as [e |].
      * destruct Hcase as (done & type & item & e0 & rest & -> & Hdone & Heq & He).
        exists (log1 ++ done), type, item, e0, rest.
        split; [now rewrite app_assoc |].
        split; [now apply Forall_app |].
        split; [| exact He].
        rewrite map_app, Heq1, <- app_assoc. f_equal. exact Heq.
      * destruct Hcase as [Heq Hall]. split.
        -- rewrite map_app, Heq1. f_equal. exact Heq.
        -- now apply Forall_app.
Qed.

(** C5: for every sequence of typed collections of records (items that are
    truthy, as every object is), [indexArrays] writes the records one at a
    time in the supplied order, each write after the answer to the one
    before it; the first write that fails is the last one made, so that no
    later record of that collection and no later collection is attempted,
    and the error handed to the callback is that write's error with its
    message set to "Error while indexing " followed by the type of the
    failing collection, the rest of the error being left as it was; when
    no write fails every record of every collection has been written and
    the callback gets a null error. *)
Theorem indexArrays_fail_fast {R} (index : string) (lists : list Collection)
    (callback : option Err -> World S -> R) (w : World S) :
  Forall (fun wrap => Forall (fun item => truthy item = true) (coll_list wrap)) lists ->
  exists (log : list Attempt) (err : option Err) (w' : World S),
    indexArrays client index lists callback w = callback err w' /\
    calls w' = calls w ++ map (attempt_call index (heap w)) log /\
    match err with
    | None =>
        map attempt_write log = supplied lists /\
        Forall succeeded log
    | Some e =>
        exists done type item e0 rest,
          log = done ++ [(type, item, inl e0)] /\
          Forall succeeded done /\
          supplied lists = map attempt_write done ++ (type, item) :: rest /\
          err_message e = ("Error while indexing " ++ type)%string /\
          err_detail e = err_detail e0
    end.
Proof.
  intros Htruthy.
  destruct (indexArrays_run index lists callback w)
    as (log & err & w' & Hrun & _ & Hcalls & Hcase).
  rewrite (taken_truthy _ Htruthy) in Hcase.
  exists log, err, w'. split; [exact Hrun |]. split; [exact Hcalls |].
  destruct err as [e |]; [| exact Hcase].
  destruct Hcase as (done & type & item & e0 & rest & Hlog & Hdone & Hsup & He).
  exists done, type, item, e0, rest.
  split; [exact Hlog |]. split; [exact Hdone |]. split; [exact Hsup |].
  rewrite He. split; reflexivity.
Qed.

End Pipeline.

Lemma indexArrays_fail_fast_witness :
  Forall (fun wrap => Forall (fun item => truthy item = true) (coll_list wrap))
    example_collections /\
  exists (log : list Attempt) (err : option Err) (w' : World Script),
    indexArrays scripted "textus" example_collections (fun err w => (err, w))
      (example_world second_write_fails) = (err, w') /\
    calls w' = calls (example_world second_write_fails)
               ++ map (attempt_call "textus" (heap (example_world second_write_fails))) log /\
    match err with
    | None =>
        map attempt_write log = supplied example_collections /\
        Forall succeeded log
    | Some e =>
        exists done type item e0 rest,
          log = done ++ [(type, item, inl e0)] /\
          Forall succeeded done /\
          supplied example_collections
          = map attempt_write done ++ (type, item) :: rest /\
          err_message e = ("Error while indexing " ++ type)%string /\
          err_detail e = err_detail e0
    end.
Proof.
  assert (Htruthy : Forall (fun wrap => Forall (fun item => truthy item = true)
                                          (coll_list wrap)) example_collections)
    by (repeat constructor).
  split; [exact Htruthy |].
  exact (indexArrays_fail_fast scripted "textus" example_collections
           (fun err w => (err, w)) (example_world second_write_fails) Htruthy).
Defined.

(** The example of the specification: of the collections "text" with the
    records A and B and "semantics" with the record C, where the write of B
    fails, A and B are attempted and C is not, and the error names "text". *)
Lemma indexArrays_example :
  indexArrays scripted "textus" example_collections
    (fun err w =>
       (err,
        map (fun c => match c with
                      | CallIndex _ type item _ _ _ => (type, item)
                      | _ => (""%string, VUndefined)
                      end) (calls w)))
    (example_world second_write_fails)
  = (Some {| err_message := "Error while indexing text";
             err_detail := "connection reset" |},
     [("text"%string, VObj 11%positive); ("text"%string, VObj 12%positive)]).
Proof. reflexivity. Qed.

(** ** Import and metadata *)

Section ImportRun.
Context {S : Type} (client : Client S) (textusIndex : string).

Lemma date_of_stamp (textId : string) (annotations : list loc) (h : Heap)
    (m : loc) (v : JsVal) :
  date_of h m = Some v ->
  date_of (snd (stamp_annotations textId annotations h)) m = Some v.
Proof.
  unfold stamp_annotations. cbn [snd].
  revert h. induction annotations as [|l annotations IH]; intros h Hd; [exact Hd |].
  cbn [fold_left]. apply IH.
  unfold date_of, set_field in *. rewrite lookup_alter.
  destruct (decide (l = m)) as [-> |]; [| exact Hd].
  destruct (h !! m) as [o |]; [| discriminate]. simpl.
  now rewrite lookup_insert_ne.
Qed.

Lemma date_of_alloc_chunks (textId : string) (chunks : list Chunk) (h : Heap)
    (m : loc) (v : JsVal) :
  date_of h m = Some v ->
  date_of (snd (alloc_chunks textId chunks h)) m = Some v.
Proof.
  revert h. induction chunks as [|chunk chunks IH]; intros h Hd; [exact Hd |].
  cbn [alloc_chunks alloc].
  destruct (alloc_chunks textId chunks
              (<[fresh (dom h) := chunk_object textId chunk]> h))
    as [items h'] eqn:Hrest.
  cbn [snd]. change h' with (snd (items, h')). rewrite <- Hrest. apply IH.
  unfold date_of in *. rewrite lookup_insert_ne; [exact Hd |].
  intros Heq. pose proof (is_fresh (dom h)) as Hfresh.
  rewrite Heq in Hfresh. apply Hfresh, elem_of_dom.
  destruct (h !! m); [eauto | discriminate].
Qed.

Lemma lookup_set_date (h : Heap) (m : loc) (o : Obj) :
  h !! m = Some o ->
  set_field m "date" (VFun DateNow) h !! m
  = Some (<["date"%string := VFun DateNow]> o).
Proof. intros Hm. unfold set_field. now rewrite lookup_alter_eq, Hm. Qed.

(** Once the metadata is written and the chunks are cut, what the callback
    of [importData] is told is the answer to the refresh alone: the error
    [indexArrays] reports is not passed on. *)
Lemma importData_reports_refresh_only {R} (fuel : nat) (data : ImportData)
    (callback : option Err -> option string -> World S -> R) (w : World S)
    (res : IndexResult) (s1 : S) (chunks : list Chunk) :
  let h0 := set_field (data_metadata data) "date" (VFun DateNow) (heap w) in
  es_index client textusIndex "structure" (VObj (data_metadata data))
    (snapshot h0 (VObj (data_metadata data))) None (store w) = (inr res, s1) ->
  createTextChunks fuel textChunkSize (data_text data) = Some chunks ->
  exists w2 : World S,
    importData client textusIndex fuel data callback w
    = Done (callback (fst (es_refresh client textusIndex (store w2)))
              (Some (res_id res))
              {| heap := heap w2;
                 store := snd (es_refresh client textusIndex (store w2));
                 calls := calls w2
                          ++ [CallRefresh textusIndex
                                (fst (es_refresh client textusIndex (store w2)))] |}).
Proof.
  intros h0 Hindex Hchunks. unfold importData, client_index.
  cbn [heap store calls]. fold h0. rewrite Hindex, Hchunks.
  destruct (alloc_chunks (res_id res) chunks h0) as [text h1].
  unfold stamp_annotations.
  match goal with
  | |- context [indexArrays client textusIndex ?lists ?k ?w1] =>
      destruct (indexArrays_run client textusIndex lists k w1)
        as (log & err & w2 & Hrun & _)
  end.
  exists w2. rewrite Hrun. unfold client_refresh.
  now destruct (es_refresh client textusIndex (store w2)).
Qed.

(** C9: [importData] and [updateTextMetadata] overwrite the [date] property
    of the caller's metadata object in place with the function [Date.now]
    itself, before the object is handed to the store: the structure record
    the client is asked to write is the caller's object with [date] being
    that function, not a number, and the caller's object still has that
    [date] when the run ends or hangs. *)
Theorem metadata_date_is_function (w : World S) (m : loc) (o : Obj) :
  heap w !! m = Some o ->
  (forall (fuel : nat) (data : ImportData),
      data_metadata data = m ->
      let w' := final_world
                  (importData client textusIndex fuel data (fun _ _ w => w) w) in
      date_of (heap w') m = Some (VFun DateNow) /\
      exists reply rest,
        calls w'
        = calls w
          ++ CallIndex textusIndex "structure" (VObj m)
               (Some (<["date"%string := VFun DateNow]> o)) None reply :: rest) /\
  (forall textId : string,
      let w' := updateTextMetadata client textusIndex textId m (fun _ _ w => w) w in
      date_of (heap w') m = Some (VFun DateNow) /\
      exists reply rest,
        calls w'
        = calls w
          ++ CallIndex textusIndex "structure" (VObj m)
               (Some (<["date"%string := VFun DateNow]> o))
               (Some {| opt_id := Some textId; opt_refresh := Some true;
                        opt_create := Some false |}) reply :: rest) /\
  (forall n : Z,
      (<["date"%string := VFun DateNow]> o : Obj) !! "date"%string <> Some (VNum n)).
Proof.
  intros Hm.
  pose proof (lookup_set_date _ _ _ Hm) as Hset.
  assert (Hdate : date_of (set_field m "date" (VFun DateNow) (heap w)) m
                  = Some (VFun DateNow)).
  { unfold date_of. rewrite Hset. apply lookup_insert_eq. }
  split; [| split].
  - intros fuel data <-. unfold importData, client_index.
    cbn [heap store calls snapshot]. rewrite Hset.
    destruct (es_index client textusIndex "structure" (VObj (data_metadata data)) _
                None (store w)) as [[e | res] s1].
    + cbn [final_world heap calls]. split; [exact Hdate | eauto].
    + destruct (createTextChunks fuel textChunkSize (data_text data)) as [chunks |].
      * destruct (alloc_chunks (res_id res) chunks
                    (set_field (data_metadata data) "date" (VFun DateNow) (heap w)))
          as [text h1] eqn:Halloc.
        assert (Hd1 : date_of h1 (data_metadata data) = Some (VFun DateNow)).
        { change h1 with (snd (text, h1)). rewrite <- Halloc.
          now apply date_of_alloc_chunks. }
        apply (date_of_stamp (res_id res) (data_semantics data)) in Hd1.
        apply (date_of_stamp (res_id res) (data_typography data)) in Hd1.
        unfold stamp_annotations in *. cbn [snd] in Hd1.
        match goal with
        | |- context [indexArrays client textusIndex ?lists ?k ?w1] =>
            destruct (indexArrays_run client textusIndex lists k w1)
              as (log & err & w2 & Hrun & Hheap & Hcalls & _)
        end.
        rewrite Hrun. unfold client_refresh.
        destruct (es_refresh client textusIndex (store w2)) as [r s2].
        cbn [final_world heap calls] in *. rewrite Hheap, Hcalls.
        split; [exact Hd1 |]. rewrite <- !app_assoc. cbn [app]. eauto.
      * cbn [final_world heap calls]. split; [exact Hdate | eauto].
  - intros textId. unfold updateTextMetadata, client_index.
    cbn [heap store calls snapshot]. rewrite Hset.
    destruct (es_index client textusIndex "structure" (VObj m) _ _ (store w))
      as [[e | res] s1].
    + cbn [heap calls]. split; [exact Hdate | eauto].
    + unfold regenerateBibliographicReferences, getTextMetadata, client_get.
      cbn [heap store calls].
      destruct (es_get client textusIndex textId s1) as [[e | doc] s2];
        cbn [heap calls]; (split; [exact Hdate |]);
        rewrite <- app_assoc; cbn [app]; eauto.
  - intros n. now rewrite lookup_insert_eq.
Qed.

End ImportRun.

Lemma metadata_date_is_function_witness :
  heap (example_world second_write_fails) !! 1%positive
  = Some (<["title"%string := VStr "Walden"]> ∅) /\
  date_of
    (heap (final_world
             (importData scripted "textus" 3 example_data (fun _ _ w => w)
                (example_world second_write_fails)))) 1%positive
  = Some (VFun DateNow) /\
  date_of
    (heap (updateTextMetadata scripted "textus" "t1" 1%positive (fun _ _ w => w)
             (example_world second_write_fails))) 1%positive
  = Some (VFun DateNow).
Proof.
  assert (Hm : heap (example_world second_write_fails) !! 1%positive
               = Some (<["title"%string := VStr "Walden"]> ∅)) by reflexivity.
  split; [exact Hm |].
  destruct (metadata_date_is_function scripted "textus" _ _ _ Hm) as (Hi & Hu & _).
  split.
  - exact (proj1 (Hi 3%nat example_data eq_refl)).
  - exact (proj1 (Hu "t1"%string)).
Defined.

(** C1 (the code departs from the claim): in an import whose metadata write
    succeeds with the id "t1" and whose first chunk write then fails, the
    callback is called with a null error and the id "t1": the failure of
    the write of type "text" is in the log of the run and is not reported. *)
Theorem importData_hides_write_failure :
  importData scripted "textus" 3 example_data
    (fun err textId w => (err, textId, failed_writes (calls w)))
    (example_world second_write_fails)
  = Done (None, Some "t1"%string, [("text"%string, boom)]).
Proof. vm_compute. reflexivity. Qed.

(** An import of the single part "hello" never calls back: once the
    metadata is written the run stays in the chunking loop, whatever the
    fuel. *)
Lemma importData_single_token_hangs (fuel : nat) :
  exists w : World Script,
    importData scripted "textus" fuel
      {| data_metadata := 1%positive;
         data_text := [ {| part_sequence := 0; part_text := "hello" |} ];
         data_semantics := [];
         data_typography := [] |}
      (fun err textId w => (err, textId))
      (example_world second_write_fails)
    = OutOfFuel w.
Proof.
  unfold importData, client_index. cbn [store example_world second_write_fails
    scripted es_index script_index].
  rewrite createTextChunks_diverges;
    [eauto | discriminate | apply lastIndexOf_hello].
Qed.

(** ** Fetching a range *)

Section Fetch.
Context {S : Type} (client : Client S) (textusIndex : string).

(** What the [forEach] over the hits leaves in its accumulators. *)
Lemma fold_fetchText_hit (hits : list Hit) (acc : HitAcc) :
  fold_left fetchText_hit hits acc
  = {| acc_textChunks :=
         acc_textChunks acc ++ map hit_source (hits_of_type "text" hits);
       acc_typography :=
         acc_typography acc ++ map with_id (hits_of_type "typography" hits);
       acc_semantics :=
         acc_semantics acc ++ map with_id (hits_of_type "semantics" hits);
       acc_error :=
         match last (unknown_types hits) with
         | Some type => Some ("Unknown result type! '" ++ type ++ "'.")%string
         | None => acc_error acc
         end |}.
Proof.
  revert acc. induction hits as [|hit hits IH]; intros acc.
  - destruct acc; cbn. now rewrite !app_nil_r.
  - cbn [fold_left]. rewrite IH. unfold fetchText_hit, hits_of_type, unknown_types.
    cbn [map List.filter]. unfold recognised at 2.
    destruct (String.eqb_spec (hit_type hit) "text") as [Ht | Ht].
    { rewrite Ht. cbn. now rewrite <- app_assoc. }
    destruct (String.eqb_spec (hit_type hit) "typography") as [Hy | Hy].
    { rewrite Hy. cbn. now rewrite <- app_assoc. }
    destruct (String.eqb_spec (hit_type hit) "semantics") as [Hs | Hs].
    { rewrite Hs. cbn. now rewrite <- app_assoc. }
    cbn. rewrite last_cons.
    now destruct (last (List.filter (fun type => negb (recognised type))
                          (map hit_type hits))).
Qed.

(** C10: for every successful search result with a hit whose type is none
    of "text", "typography" and "semantics", [fetchText] calls its callback
    with both an error, the message that names the last such type, and the
    data object assembled from the hits of the three known types. *)
Theorem fetchText_unknown_type_reports_both {R} (textId : string)
    (start end_ : option Z)
    (callback : option JsError -> option FetchData -> World S -> R)
    (w : World S) (hits : list Hit) (s' : S) :
  es_search client (buildRangeQuery textusIndex textId start end_) (store w)
  = (inr hits, s') ->
  unknown_types hits <> [] ->
  exists type : string,
    last (unknown_types hits) = Some type /\
    fetchText client textusIndex textId start end_ callback w
    = callback
        (Some (ErrString ("Unknown result type! '" ++ type ++ "'.")))
        (Some {| fd_textId := textId;
                 fd_text :=
                   j_text (joinTextChunksAndTrim start end_
                             (map as_chunk
                                (map hit_source (hits_of_type "text" hits))));
                 fd_typography := map with_id (hits_of_type "typography" hits);
                 fd_semantics := map with_id (hits_of_type "semantics" hits);
                 fd_start := start;
                 fd_end := end_ |})
        {| heap := heap w; store := s';
           calls := calls w
                    ++ [CallSearch (buildRangeQuery textusIndex textId start end_)
                          (inr hits)] |}.
Proof.
  intros Hsearch Hunknown.
  destruct (last (unknown_types hits)) as [type |] eqn:Hlast.
  - exists type. split; [reflexivity |].
    unfold fetchText, client_search. rewrite Hsearch, fold_fetchText_hit, Hlast.
    reflexivity.
  - apply last_None in Hlast. contradiction.
Qed.

End Fetch.

Lemma fetchText_unknown_type_reports_both_witness :
  unknown_types
    [ {| hit_type := "text"; hit_id := "c1";
         hit_source := <["text"%string := VStr "the"]> (stored_record "t1" 0 3) |};
      {| hit_type := "bibjson"; hit_id := "b1"; hit_source := ∅ |} ] <> [] /\
  fetchText scripted "textus" "t1" (Some 0) (Some 3)
    (fun err data w => (err, fd_text <$> data))
    (example_world
       {| script_index := [];
          script_search :=
            inr [ {| hit_type := "text"; hit_id := "c1";
                     hit_source := <["text"%string := VStr "the"]> (stored_record "t1" 0 3) |};
                  {| hit_type := "bibjson"; hit_id := "b1"; hit_source := ∅ |} ];
          script_get := inr ∅;
          script_refresh := None |})
  = (Some (ErrString "Unknown result type! 'bibjson'."), Some "the"%string).
Proof.
  assert (Hunknown :
            unknown_types
              [ {| hit_type := "text"; hit_id := "c1";
                   hit_source := <["text"%string := VStr "the"]> (stored_record "t1" 0 3) |};
                {| hit_type := "bibjson"; hit_id := "b1"; hit_source := ∅ |} ] <> [])
    by discriminate.
  split; [exact Hunknown |].
  destruct (fetchText_unknown_type_reports_both scripted "textus" "t1" (Some 0) (Some 3)
              (fun err data w => (err, fd_text <$> data))
              (example_world
                 {| script_index := [];
                    script_search :=
                      inr [ {| hit_type := "text"; hit_id := "c1";
                               hit_source := <["text"%string := VStr "the"]> (stored_record "t1" 0 3) |};
                            {| hit_type := "bibjson"; hit_id := "b1";
                               hit_source := ∅ |} ];
                    script_get := inr ∅;
                    script_refresh := None |})
              _ _ eq_refl Hunknown) as (type & Hlast & Hrun).
  rewrite Hrun. injection Hlast as <-. reflexivity.
Defined.

(** * Further properties *)

(** ** The chunking loop as a relation *)

Section Cuts.
Import JsString.

(** A run of the loop that ends is a derivation of [cuts]. *)
Lemma chunkLoop_cuts (maxSize : Z) (fuel : nat) :
  forall text offset result chunks,
    chunkLoop fuel maxSize text offset result = Some chunks ->
    exists new, chunks = result ++ new /\ cuts maxSize text offset new.
Proof.
  induction fuel as [|fuel IH]; intros text offset result chunks; [discriminate |].
  cbn [chunkLoop]. destruct (String.eqb_spec text "") as [-> | Hne].
  - intros [= <-]. exists []. rewrite app_nil_r. split; [reflexivity | constructor].
  - destruct (Z.eqb_spec (lastIndexOf text " "%char maxSize) (-1)) as [Hm | Hm].
    + apply IH.
    + destruct (Z.eqb_spec (lastIndexOf text " "%char maxSize) 0) as [Hz | Hnz].
      * destruct fuel as [|fuel]; [discriminate |]. cbn [chunkLoop String.eqb].
        intros [= <-]. eexists. split; [reflexivity |]. now constructor.
      * intros Hrun. apply IH in Hrun as (new & -> & Hcuts).
        eexists. split; [now rewrite <- app_assoc |].
        apply cuts_split with (length := lastIndexOf text " "%char maxSize);
          try assumption; try reflexivity.
        destruct (lastIndexOf_range text " "%char maxSize) as [? | (? & _)]; lia.
Qed.

(** A split point lies inside the text, on a space. *)
Lemma split_point (maxSize : Z) (text : string) (k : Z) :
  lastIndexOf text " "%char maxSize = k -> 0 <= k ->
  k < len text /\ k <= Z.max maxSize 0 /\
  exists rest, drop (Z.to_nat k) text = String " "%char rest.
Proof.
  intros Hk Hpos.
  destruct (lastIndexOf_range text " "%char maxSize) as [Hr | (Hr & Hlt & Hget)];
    [lia |].
  rewrite Hk in *. repeat split; try lia. now apply drop_get.
Qed.

Lemma cuts_join (maxSize : Z) (text : string) (offset : Z) (chunks : list Chunk) :
  cuts maxSize text offset chunks ->
  join (map chunk_text chunks) = text /\ contiguous offset chunks.
Proof.
  induction 1 as [offset | text offset Hne Hz
                 | text offset k chunks Hne Hk Hpos Hcuts [IHj IHc]].
  - now split.
  - split; [apply app_empty_r | now split].
  - destruct (split_point _ _ _ Hk ltac:(lia)) as (Hlt & _ & _).
    rewrite substring_suffix in IHj by lia.
    cbn [map chunk_text contiguous chunk_offset]. rewrite substring_prefix by lia.
    split.
    + rewrite join_cons, IHj. apply take_drop.
    + split; [reflexivity |].
      replace (len (take (Z.to_nat k) text)) with k; [exact IHc |].
      unfold len in *. rewrite length_take. lia.
Qed.

Lemma cuts_nonempty (maxSize : Z) (text : string) (offset : Z) (chunks : list Chunk) :
  cuts maxSize text offset chunks ->
  Forall (fun c => chunk_text c <> ""%string) chunks.
Proof.
  induction 1 as [offset | text offset Hne Hz
                 | text offset k chunks Hne Hk Hpos Hcuts IH].
  - constructor.
  - now repeat constructor.
  - constructor; [| exact IH]. cbn [chunk_text].
    destruct (split_point _ _ _ Hk ltac:(lia)) as (Hlt & _ & _).
    rewrite substring_prefix by lia. intros Hempty.
    assert (Hl : String.length (take (Z.to_nat k) text) = 0%nat) by now rewrite Hempty.
    rewrite length_take in Hl. unfold len in *. lia.
Qed.

(** The first chunk cut from a text begins as the text does. *)
Lemma cuts_head (maxSize : Z) (a : ascii) (rest : string) (offset : Z)
    (c : Chunk) (chunks : list Chunk) :
  cuts maxSize (String a rest) offset (c :: chunks) ->
  exists t, chunk_text c = String a t.
Proof.
  inversion 1 as [| text o Hne Hz | text o k cs Hne Hk Hpos Hcuts]; subst.
  - now exists rest.
  - destruct (split_point maxSize (String a rest) _ eq_refl ltac:(lia))
      as (Hlt & _ & _).
    cbn [chunk_text]. rewrite substring_prefix by lia.
    destruct (Z.to_nat (lastIndexOf (String a rest) " "%char maxSize))
      as [|n] eqn:Hn; [lia |].
    cbn [take]. eauto.
Qed.

Lemma cuts_spaces (maxSize : Z) (text : string) (offset : Z) (chunks : list Chunk) :
  cuts maxSize text offset chunks ->
  forall (i : nat) (c : Chunk),
    chunks !! S i = Some c -> exists t, chunk_text c = String " "%char t.
Proof.
  induction 1 as [offset | text offset Hne Hz
                 | text offset k chunks Hne Hk Hpos Hcuts IH]; intros i c Hi.
  - discriminate.
  - discriminate.
  - cbn in Hi. destruct i as [|i]; [| exact (IH _ _ Hi)].
    destruct (split_point _ _ _ Hk ltac:(lia)) as (Hlt & _ & rest & Hrest).
    rewrite substring_suffix, Hrest in Hcuts by lia.
    destruct chunks as [|d chunks]; [discriminate |].
    injection Hi as ->. exact (cuts_head _ _ _ _ _ _ Hcuts).
Qed.

Lemma suffix_at_app (pre text : string) (c : Chunk) :
  chunk_offset c = len pre -> suffix_at (pre +:+ text) c = text.
Proof.
  intros Ho. unfold suffix_at. rewrite substring_suffix.
  - rewrite Ho. unfold len. rewrite Nat2Z.id. apply drop_app_length.
  - rewrite Ho, len_app. pose proof (len_nonneg pre). pose proof (len_nonneg text).
    lia.
Qed.

(** Every chunk is cut from what was left of the merged text at its offset,
    at the last space at or before [maxSize]. *)
Lemma cuts_greedy (maxSize : Z) (text : string) (offset : Z) (chunks : list Chunk) :
  cuts maxSize text offset chunks ->
  forall pre : string,
    offset = len pre ->
    forall (i : nat) (c : Chunk),
      chunks !! i = Some c ->
      (0 < lastIndexOf (suffix_at (pre +:+ text) c) " "%char maxSize /\
       chunk_text c
       = substring (suffix_at (pre +:+ text) c) 0
           (lastIndexOf (suffix_at (pre +:+ text) c) " "%char maxSize))
      \/
      (lastIndexOf (suffix_at (pre +:+ text) c) " "%char maxSize = 0 /\
       chunk_text c = suffix_at (pre +:+ text) c /\
       S i = length chunks).
Proof.
  induction 1 as [offset | text offset Hne Hz
                 | text offset k chunks Hne Hk Hpos Hcuts IH];
    intros pre Ho i c Hi.
  - discriminate.
  - destruct i as [|i]; [| discriminate]. injection Hi as <-.
    rewrite suffix_at_app by exact Ho. right. now repeat split.
  - destruct i as [|i].
    + injection Hi as <-. rewrite suffix_at_app by exact Ho.
      left. rewrite Hk. now split.
    + cbn in Hi.
      destruct (split_point _ _ _ Hk ltac:(lia)) as (Hlt & _ & _).
      specialize (IH (pre +:+ take (Z.to_nat k) text)).
      rewrite app_assoc_str, substring_suffix, take_drop in IH by lia.
      destruct (IH ltac:(rewrite len_app; unfold len in *; rewrite length_take; lia)
                  i c Hi) as [Hl | (H1 & H2 & H3)].
      * now left.
      * right. repeat split; try assumption. cbn [length]. lia.
Qed.

End Cuts.

(** ** Chunking, continued *)

Section ChunkingMore.
Import JsString.

Lemma createTextChunks_cuts (fuel : nat) (maxSize : Z) (parts : list TextPart)
    (chunks : list Chunk) :
  createTextChunks fuel maxSize parts = Some chunks ->
  cuts maxSize (mergeParts parts) 0 chunks.
Proof.
  intros Hrun. apply chunkLoop_cuts in Hrun as (new & -> & Hcuts). exact Hcuts.
Qed.

(** X1: [createTextChunks] returns, for some amount of fuel, exactly when
    the merged text is empty or holds a space at or before index [maxSize];
    this for every [maxSize], zero and negative ones included. *)
Theorem createTextChunks_returns_iff (maxSize : Z) (parts : list TextPart) :
  (exists (fuel : nat) (chunks : list Chunk),
      createTextChunks fuel maxSize parts = Some chunks)
  <->
  (mergeParts parts = ""%string \/
   lastIndexOf (mergeParts parts) " "%char maxSize <> -1).
Proof.
  split.
  - intros (fuel & chunks & Hrun).
    destruct (string_dec (mergeParts parts) "") as [He | Hne]; [now left |].
    destruct (Z.eq_dec (lastIndexOf (mergeParts parts) " "%char maxSize) (-1))
      as [Hm | Hm]; [| now right].
    unfold createTextChunks in Hrun.
    rewrite (chunkLoop_diverges maxSize _ 0 [] Hne Hm fuel) in Hrun. discriminate.
  - intros Hsp.
    destruct (chunkLoop_terminates maxSize (String.length (mergeParts parts))
                (mergeParts parts) 0 [] (Nat.le_refl _) Hsp) as (chunks & Hrun).
    eauto.
Qed.

(** X2: whenever [createTextChunks] returns, whatever [maxSize] is, the
    texts of its chunks joined in order are the merged text, and the
    chunks lie end to end from offset 0: each offset is the offset before
    it plus the length of the text before it. *)
Theorem createTextChunks_round_trip (fuel : nat) (maxSize : Z)
    (parts : list TextPart) (chunks : list Chunk) :
  createTextChunks fuel maxSize parts = Some chunks ->
  join (map chunk_text chunks) = mergeParts parts /\ contiguous 0 chunks.
Proof. intros Hrun. exact (cuts_join _ _ _ _ (createTextChunks_cuts _ _ _ _ Hrun)). Qed.

Lemma createTextChunks_round_trip_witness :
  createTextChunks 4 (-1) [ {| part_sequence := 2; part_text := "b c" |};
                            {| part_sequence := 1; part_text := " a" |} ]
  = Some [ {| chunk_text := " ab c"; chunk_offset := 0 |} ] /\
  join (map chunk_text [ {| chunk_text := " ab c"; chunk_offset := 0 |} ])
  = mergeParts [ {| part_sequence := 2; part_text := "b c" |};
                 {| part_sequence := 1; part_text := " a" |} ] /\
  contiguous 0 [ {| chunk_text := " ab c"; chunk_offset := 0 |} ].
Proof.
  assert (Hrun : createTextChunks 4 (-1)
                   [ {| part_sequence := 2; part_text := "b c" |};
                     {| part_sequence := 1; part_text := " a" |} ]
                 = Some [ {| chunk_text := " ab c"; chunk_offset := 0 |} ])
    by reflexivity.
  split; [exact Hrun |].
  exact (createTextChunks_round_trip _ _ _ _ Hrun).
Defined.

(** X3: [createTextChunks] never emits an empty chunk: every chunk it
    returns has a text of at least one character, so that every stored
    text record has its end after its start. *)
Theorem createTextChunks_no_empty_chunk (fuel : nat) (maxSize : Z)
    (parts : list TextPart) (chunks : list Chunk) :
  createTextChunks fuel maxSize parts = Some chunks ->
  Forall (fun c => chunk_text c <> ""%string /\
                   tc_start (chunk_record c) < tc_end (chunk_record c)) chunks.
Proof.
  intros Hrun. apply createTextChunks_cuts, cuts_nonempty in Hrun.
  eapply Forall_impl; [exact Hrun |]. intros c Hc. split; [exact Hc |].
  cbn [chunk_record tc_start tc_end].
  pose proof (len_nonneg (chunk_text c)).
  destruct (Z.eq_dec (len (chunk_text c)) 0) as [Hz | Hz]; [| lia].
  apply len_zero in Hz. contradiction.
Qed.

Lemma createTextChunks_no_empty_chunk_witness :
  createTextChunks 4 6 [ {| part_sequence := 1; part_text := "hello " |};
                         {| part_sequence := 0; part_text := "the " |} ]
  = Some [ {| chunk_text := "the"; chunk_offset := 0 |};
           {| chunk_text := " hello"; chunk_offset := 3 |};
           {| chunk_text := " "; chunk_offset := 9 |} ] /\
  Forall (fun c => chunk_text c <> ""%string /\
                   tc_start (chunk_record c) < tc_end (chunk_record c))
    [ {| chunk_text := "the"; chunk_offset := 0 |};
      {| chunk_text := " hello"; chunk_offset := 3 |};
      {| chunk_text := " "; chunk_offset := 9 |} ].
Proof.
  assert (Hrun : createTextChunks 4 6
                   [ {| part_sequence := 1; part_text := "hello " |};
                     {| part_sequence := 0; part_text := "the " |} ]
                 = Some [ {| chunk_text := "the"; chunk_offset := 0 |};
                          {| chunk_text := " hello"; chunk_offset := 3 |};
                          {| chunk_text := " "; chunk_offset := 9 |} ])
    by reflexivity.
  split; [exact Hrun |].
  exact (createTextChunks_no_empty_chunk _ _ _ _ Hrun).
Defined.

(** X4: every chunk [createTextChunks] returns, but the first, begins with
    a space: the text is only ever cut in front of a space, and no space
    is dropped. *)
Theorem createTextChunks_cut_before_spaces (fuel : nat) (maxSize : Z)
    (parts : list TextPart) (chunks : list Chunk) :
  createTextChunks fuel maxSize parts = Some chunks ->
  forall (i : nat) (c : Chunk),
    chunks !! S i = Some c ->
    exists t : string, chunk_text c = String " "%char t.
Proof. intros Hrun. exact (cuts_spaces _ _ _ _ (createTextChunks_cuts _ _ _ _ Hrun)). Qed.

Lemma createTextChunks_cut_before_spaces_witness :
  createTextChunks 4 6 [ {| part_sequence := 1; part_text := "hello " |};
                         {| part_sequence := 0; part_text := "the " |} ]
  = Some [ {| chunk_text := "the"; chunk_offset := 0 |};
           {| chunk_text := " hello"; chunk_offset := 3 |};
           {| chunk_text := " "; chunk_offset := 9 |} ] /\
  exists t : string,
    chunk_text {| chunk_text := " hello"; chunk_offset := 3 |} = String " "%char t.
Proof.
  assert (Hrun : createTextChunks 4 6
                   [ {| part_sequence := 1; part_text := "hello " |};
                     {| part_sequence := 0; part_text := "the " |} ]
                 = Some [ {| chunk_text := "the"; chunk_offset := 0 |};
                          {| chunk_text := " hello"; chunk_offset := 3 |};
                          {| chunk_text := " "; chunk_offset := 9 |} ])
    by reflexivity.
  split; [exact Hrun |].
  exact (createTextChunks_cut_before_spaces _ _ _ _ Hrun 0%nat _ eq_refl).
Defined.

(** X5: every chunk [createTextChunks] returns is cut greedily: it is what
    was left of the merged text at its offset, up to the last space at or
    before index [maxSize] of that rest; only when that space is at index 0
    is the whole rest taken, and the chunk is then the last one. *)
Theorem createTextChunks_greedy (fuel : nat) (maxSize : Z)
    (parts : list TextPart) (chunks : list Chunk) :
  createTextChunks fuel maxSize parts = Some chunks ->
  forall (i : nat) (c : Chunk),
    chunks !! i = Some c ->
    (0 < lastIndexOf (suffix_at (mergeParts parts) c) " "%char maxSize /\
     chunk_text c
     = substring (suffix_at (mergeParts parts) c) 0
         (lastIndexOf (suffix_at (mergeParts parts) c) " "%char maxSize))
    \/
    (lastIndexOf (suffix_at (mergeParts parts) c) " "%char maxSize = 0 /\
     chunk_text c = suffix_at (mergeParts parts) c /\
     S i = length chunks).
Proof.
  intros Hrun i c Hi.
  exact (cuts_greedy _ _ _ _ (createTextChunks_cuts _ _ _ _ Hrun) "" eq_refl i c Hi).
Qed.

Lemma createTextChunks_greedy_witness :
  createTextChunks 4 6 [ {| part_sequence := 1; part_text := "hello " |};
                         {| part_sequence := 0; part_text := "the " |} ]
  = Some [ {| chunk_text := "the"; chunk_offset := 0 |};
           {| chunk_text := " hello"; chunk_offset := 3 |};
           {| chunk_text := " "; chunk_offset := 9 |} ] /\
  lastIndexOf (suffix_at "the hello " {| chunk_text := " hello"; chunk_offset := 3 |})
    " "%char 6 = 6.
Proof.
  assert (Hrun : createTextChunks 4 6
                   [ {| part_sequence := 1; part_text := "hello " |};
                     {| part_sequence := 0; part_text := "the " |} ]
                 = Some [ {| chunk_text := "the"; chunk_offset := 0 |};
                          {| chunk_text := " hello"; chunk_offset := 3 |};
                          {| chunk_text := " "; chunk_offset := 9 |} ])
    by reflexivity.
  split; [exact Hrun |].
  destruct (createTextChunks_greedy _ _ _ _ Hrun 1%nat _ eq_refl)
    as [[_ _] | (H0 & _)]; [reflexivity | discriminate H0].
Defined.

End ChunkingMore.

(** ** Sorting, continued *)

Section SortMore.
Context {A : Type} (key : A -> Z).

Lemma key_inj_NoDup (l : list A) (x y : A) :
  NoDup (map key l) -> x ∈ l -> y ∈ l -> key x = key y -> x = y.
Proof.
  induction l as [|z l IH]; intros Hnd Hx Hy Hk.
  - now apply elem_of_nil in Hx.
  - cbn [map] in Hnd. apply NoDup_cons in Hnd as [Hz Hnd].
    apply elem_of_cons in Hx as [-> | Hx]; apply elem_of_cons in Hy as [-> | Hy].
    + reflexivity.
    + exfalso. apply Hz. rewrite Hk. now apply (list_elem_of_fmap_2 key).
    + exfalso. apply Hz. rewrite <- Hk. now apply (list_elem_of_fmap_2 key).
    + now apply IH.
Qed.

(** With keys that are all different the sorted list does not depend on
    the order of the input. *)
Lemma sort_by_permutation (l1 l2 : list A) :
  l1 ≡ₚ l2 -> NoDup (map key l1) -> sort_by key l1 = sort_by key l2.
Proof.
  intros Hperm Hnd.
  apply (StronglySorted_unique_strong (fun a b => key a <= key b)).
  - intros x y Hx Hy Hxy Hyx.
    apply (key_inj_NoDup l1 x y Hnd); [| | lia].
    + now rewrite (sort_by_perm key l1) in Hx.
    + now rewrite (sort_by_perm key l2), <- Hperm in Hy.
  - apply sort_by_sorted.
  - apply sort_by_sorted.
  - now rewrite !sort_by_perm.
Qed.

End SortMore.

(** X6: the merged text, and with it what [createTextChunks] returns, does
    not depend on the order in which the parts are given, as long as their
    sequence numbers are all different. *)
Theorem createTextChunks_order_of_parts (parts parts' : list TextPart) :
  parts ≡ₚ parts' ->
  NoDup (map part_sequence parts) ->
  mergeParts parts = mergeParts parts' /\
  forall (fuel : nat) (maxSize : Z),
    createTextChunks fuel maxSize parts = createTextChunks fuel maxSize parts'.
Proof.
  intros Hperm Hnd.
  assert (Hm : mergeParts parts = mergeParts parts').
  { unfold mergeParts. now rewrite (sort_by_permutation _ _ _ Hperm Hnd). }
  split; [exact Hm |]. intros fuel maxSize. unfold createTextChunks. now rewrite Hm.
Qed.

Lemma createTextChunks_order_of_parts_witness :
  mergeParts [ {| part_sequence := 1; part_text := "hello " |};
               {| part_sequence := 0; part_text := "the " |} ]
  = mergeParts [ {| part_sequence := 0; part_text := "the " |};
                 {| part_sequence := 1; part_text := "hello " |} ].
Proof.
  apply (createTextChunks_order_of_parts
           [ {| part_sequence := 1; part_text := "hello " |};
             {| part_sequence := 0; part_text := "the " |} ]
           [ {| part_sequence := 0; part_text := "the " |};
             {| part_sequence := 1; part_text := "hello " |} ]).
  - apply perm_swap.
  - cbn [map part_sequence]. apply NoDup_cons. split.
    + intros H. apply list_elem_of_singleton in H. discriminate.
    + apply NoDup_singleton.
Defined.

(** X7: what [joinTextChunksAndTrim] returns does not depend on the order
    in which the records are given, as long as their starts are all
    different. *)
Theorem joinTextChunksAndTrim_order_of_records (start end_ : option Z)
    (records records' : list TextChunk) :
  records ≡ₚ records' ->
  NoDup (map tc_start records) ->
  joinTextChunksAndTrim start end_ records
  = joinTextChunksAndTrim start end_ records'.
Proof.
  intros Hperm Hnd.
  pose proof (sort_by_permutation tc_start _ _ Hperm Hnd) as Hsort.
  destruct records as [|r records], records' as [|r' records'].
  - reflexivity.
  - now apply Permutation_nil_cons in Hperm.
  - symmetry in Hperm. now apply Permutation_nil_cons in Hperm.
  - unfold joinTextChunksAndTrim. now rewrite Hsort.
Qed.

Lemma joinTextChunksAndTrim_order_of_records_witness :
  joinTextChunksAndTrim (Some 1) (Some 5)
    [ {| tc_text := " hello"; tc_start := 3; tc_end := 9 |};
      {| tc_text := "the"; tc_start := 0; tc_end := 3 |} ]
  = joinTextChunksAndTrim (Some 1) (Some 5)
      [ {| tc_text := "the"; tc_start := 0; tc_end := 3 |};
        {| tc_text := " hello"; tc_start := 3; tc_end := 9 |} ].
Proof.
  apply joinTextChunksAndTrim_order_of_records.
  - apply perm_swap.
  - cbn [map tc_start]. apply NoDup_cons. split.
    + intros H. apply list_elem_of_singleton in H. discriminate.
    + apply NoDup_singleton.
Defined.

(** ** Reconstruction of a window *)

Section Window.
Import JsString.

Lemma take_app_length (s t : string) : take (String.length s) (s +:+ t) = s.
Proof.
  induction s as [|a s IH]; [now destruct t |].
  rewrite app_cons. cbn [String.length take]. now rewrite IH.
Qed.

Lemma take_app_le (n : nat) (s t : string) :
  (n <= String.length s)%nat -> take n (s +:+ t) = take n s.
Proof.
  revert s. induction n as [|n IH]; intros [|a s] Hn; try reflexivity.
  - cbn in Hn. lia.
  - rewrite app_cons. cbn [take]. rewrite IH; [reflexivity | cbn in Hn; lia].
Qed.

Lemma drop_app_le (n : nat) (s t : string) :
  (n <= String.length s)%nat -> drop n (s +:+ t) = drop n s +:+ t.
Proof.
  revert s. induction n as [|n IH]; intros [|a s] Hn; try reflexivity.
  - cbn in Hn. lia.
  - rewrite app_cons. cbn [drop]. apply IH. cbn in Hn. lia.
Qed.

Lemma drop_app_ge (d : nat) (s t : string) :
  drop (String.length s + d) (s +:+ t) = drop d t.
Proof. induction s as [|a s IH]; [reflexivity | exact IH]. Qed.

(** The window [s, e) of a text [p ++ y ++ z], cut out of its middle part
    [y] that spans [a, b), for [a <= s <= e <= b]. *)
Lemma substr_of_middle (p y z : string) (s e : Z) :
  len p <= s -> s <= e -> e <= len p + len y ->
  substr y (s - len p) (e - s) = substring (p +:+ (y +:+ z)) s e.
Proof.
  intros Hs Hse He.
  pose proof (len_nonneg p) as Hp. pose proof (len_nonneg y) as Hy.
  pose proof (len_nonneg z) as Hz.
  unfold substr, substring. rewrite !len_app.
  replace (s - len p <? 0) with false by (symmetry; apply Z.ltb_ge; lia).
  replace (Z.min (s - len p) (len y)) with (s - len p) by lia.
  replace (Z.min (Z.max (e - s) 0) (len y)) with (e - s) by lia.
  replace (Z.min (s - len p + (e - s)) (len y)) with (e - len p) by lia.
  replace (e - len p - (s - len p)) with (e - s) by lia.
  replace (Z.min (Z.max s 0) (len p + (len y + len z))) with s by lia.
  replace (Z.min (Z.max e 0) (len p + (len y + len z))) with e by lia.
  replace (Z.min s e) with s by lia. replace (Z.max s e) with e by lia.
  replace (Z.to_nat s) with (String.length p + Z.to_nat (s - len p))%nat
    by (unfold len in *; lia).
  rewrite drop_app_ge, drop_app_le by (unfold len in *; lia).
  rewrite take_app_le; [reflexivity |].
  rewrite length_drop. unfold len in *. lia.
Qed.

Lemma tiles_bounds (o : Z) (records : list TextChunk) (n : Z) :
  tiles o records n ->
  Forall (fun c => o <= tc_start c /\ tc_start c <= tc_end c) records.
Proof.
  revert o. induction records as [|c records IH]; intros o; [constructor |].
  intros (Hs & He & Hrest). pose proof (len_nonneg (tc_text c)).
  constructor; [lia |].
  eapply Forall_impl; [exact (IH _ Hrest) |]. cbn. intros d Hd. lia.
Qed.

Lemma tiles_app (o : Z) (l1 l2 : list TextChunk) (n : Z) :
  tiles o (l1 ++ l2) n <-> exists b, tiles o l1 b /\ tiles b l2 n.
Proof.
  revert o. induction l1 as [|c l1 IH]; intros o; cbn [app tiles].
  - split; [intros H; now exists o | intros (b & -> & H); exact H].
  - rewrite IH. split.
    + intros (Hs & He & b & H1 & H2). exists b. now repeat split.
    + intros (b & (Hs & He & H1) & H2). repeat split; try assumption. now exists b.
Qed.

(** Sorting by start any arrangement of a run of records laid end to end
    gives back the run's text, and its first record. *)
Lemma join_sorted_run (records run : list TextChunk) (a b : Z) :
  records ≡ₚ run ->
  tiles a run b ->
  join (map tc_text (sort_by tc_start records)) = join (map tc_text run).
Proof.
  intros Hperm Htiles.
  rewrite <- (join_skip_empty (sort_by _ _)), <- (join_skip_empty run).
  f_equal. f_equal.
  pose proof (tiles_strict _ _ _ Htiles) as Hstrict.
  apply (StronglySorted_unique_strong (fun x y => tc_start x <= tc_start y)).
  - intros x y Hx Hy Hxy Hyx.
    apply (strictly_sorted_key_inj tc_start _ x y Hstrict); [| exact Hy | lia].
    now rewrite (sort_by_perm tc_start records), Hperm in Hx.
  - apply StronglySorted_filter_keep, sort_by_sorted.
  - now apply strictly_sorted_weaken.
  - now rewrite sort_by_perm, Hperm.
Qed.

Lemma sorted_run_head (records run : list TextChunk) (a b : Z)
    (c : TextChunk) (rest : list TextChunk) :
  records ≡ₚ run ->
  tiles a run b ->
  sort_by tc_start records = c :: rest ->
  tc_start c = a.
Proof.
  intros Hperm Htiles Hsort.
  assert (Hps : c :: rest ≡ₚ run) by now rewrite <- Hsort, sort_by_perm.
  pose proof (sort_by_sorted tc_start records) as Hsorted.
  rewrite Hsort in Hsorted. apply StronglySorted_inv in Hsorted as [_ Hc].
  rewrite Forall_forall in Hc.
  pose proof (tiles_starts _ _ _ Htiles) as Hge. rewrite Forall_forall in Hge.
  assert (Hlow : a <= tc_start c).
  { apply Hge. rewrite <- Hps. now left. }
  destruct run as [|h run].
  { symmetry in Hps. now apply Permutation_nil_cons in Hps. }
  destruct Htiles as (Hh & _).
  assert (Hin : h ∈ c :: rest) by (rewrite Hps; now left).
  apply elem_of_cons in Hin as [-> | Hin]; [exact Hh |].
  apply Hc in Hin. lia.
Qed.

Lemma overlaps_none (s e : Z) (records : list TextChunk) :
  Forall (fun c => e <= tc_start c) records ->
  List.filter (overlaps s e) records = [].
Proof.
  induction 1 as [|c records Hc _ IH]; [reflexivity |].
  cbn [List.filter]. unfold overlaps at 1.
  replace (tc_start c <? e) with false by (symmetry; apply Z.ltb_ge; lia).
  exact IH.
Qed.

(** Of records laid end to end that all end at or after [s], the ones the
    window selects are the first ones, up to the first that starts at or
    after [e]. *)
Lemma window_take (s e : Z) (records : list TextChunk) :
  forall o n : Z,
    tiles o records n ->
    Forall (fun c => s <= tc_end c) records ->
    exists (run post : list TextChunk) (b : Z),
      records = run ++ post /\
      tiles o run b /\ tiles b post n /\
      List.filter (overlaps s e) records = run /\
      (post = [] \/ e <= b) /\
      (run = [] -> records = [] \/ e <= o).
Proof.
  induction records as [|c records IH]; intros o n Htiles Hends.
  - exists [], [], o. cbn in *. repeat split; auto.
  - pose proof Htiles as (Hs & He & Hrest).
    apply Forall_cons in Hends as [Hc Hends].
    destruct (Z.ltb_spec (tc_start c) e) as [Hlt | Hge].
    + destruct (IH _ _ Hrest Hends) as (run & post & b & -> & H1 & H2 & H3 & H4 & _).
      exists (c :: run), post, b.
      split; [reflexivity |]. split; [now repeat split |]. split; [exact H2 |].
      split; [| split; [exact H4 | discriminate]].
      cbn [List.filter]. unfold overlaps at 1.
      replace (tc_start c <? e) with true by (symmetry; apply Z.ltb_lt; lia).
      replace (s <=? tc_end c) with true by (symmetry; apply Z.leb_le; lia).
      cbn [andb]. now rewrite H3.
    + exists [], (c :: records), o.
      split; [reflexivity |]. split; [reflexivity |]. split; [exact Htiles |].
      split; [| split; [right; lia | intros _; right; lia]].
      apply overlaps_none. eapply Forall_impl; [exact (tiles_starts _ _ _ Htiles) |].
      cbn. intros d Hd. lia.
Qed.

(** The records the window selects from a tiling are a run of it that
    starts at or before [s] and, unless everything ends before [s], ends
    at or after [e]. *)
Lemma window_split (s e : Z) (records : list TextChunk) :
  forall o n : Z,
    tiles o records n ->
    o <= s ->
    exists (pre run post : list TextChunk) (a b : Z),
      records = pre ++ run ++ post /\
      tiles o pre a /\ tiles a run b /\ tiles b post n /\
      List.filter (overlaps s e) records = run /\
      a <= s /\
      (post = [] \/ e <= b) /\
      (run = [] -> a = n \/ e <= a).
Proof.
  induction records as [|c records IH]; intros o n Htiles Hos.
  - exists [], [], [], o, o. cbn in *. repeat split; auto.
  - pose proof Htiles as (Hs & He & Hrest).
    destruct (Z.leb_spec s (tc_end c)) as [Hle | Hgt].
    + assert (Hends : Forall (fun d => s <= tc_end d) (c :: records)).
      { constructor; [exact Hle |].
        eapply Forall_impl; [exact (tiles_bounds _ _ _ Hrest) |]. cbn. intros d Hd. lia. }
      destruct (window_take s e _ _ _ Htiles Hends)
        as (run & post & b & Heq & H1 & H2 & H3 & H4 & H5).
      exists [], run, post, o, b. cbn [app].
      split; [exact Heq |]. split; [reflexivity |]. repeat split; try assumption.
      intros Hrun. destruct (H5 Hrun) as [Hnil | Heo]; [discriminate | now right].
    + destruct (IH _ _ Hrest ltac:(lia))
        as (pre & run & post & a & b & -> & H1 & H2 & H3 & H4 & H5 & H6 & H7).
      exists (c :: pre), run, post, a, b.
      split; [reflexivity |]. split; [now repeat split |].
      repeat split; try assumption.
      cbn [List.filter]. unfold overlaps at 1.
      replace (s <=? tc_end c) with false by (symmetry; apply Z.leb_gt; lia).
      rewrite andb_false_r. exact H4.
Qed.

(** The window of a tiling, from the records the window selects. *)
Lemma join_window (original : string) (n : Z)
    (ordered records : list TextChunk) (s e : Z) :
  tiles 0 ordered n ->
  join (map tc_text ordered) = original ->
  0 <= s -> s < e -> e <= n ->
  records ≡ₚ List.filter (overlaps s e) ordered ->
  joinTextChunksAndTrim (Some s) (Some e) records
  = {| j_text := substring original s e; j_start := Some s; j_end := Some e |}.
Proof.
  intros Htiles Horig Hs Hse Hen Hperm.
  destruct (window_split s e ordered 0 n Htiles Hs)
    as (pre & run & post & a & b & Heq & Hpre & Hrun & Hpost & Hfilter & Has & Hb & Hne).
  rewrite Hfilter in Hperm.
  assert (Hbn : b <= n).
  { pose proof (tiles_len _ _ _ Hpost). pose proof (len_nonneg (join (map tc_text post))).
    lia. }
  assert (Heb : e <= b).
  { destruct Hb as [-> | Hb]; [cbn in Hpost; lia | exact Hb]. }
  assert (Hrun_ne : run <> []).
  { intros Hnil. destruct (Hne Hnil) as [Han | Hea]; [| lia].
    subst run. cbn in Hrun. lia. }
  destruct records as [|r records].
  { now apply Permutation_nil in Hperm. }
  unfold joinTextChunksAndTrim.
  rewrite (join_sorted_run _ _ _ _ Hperm Hrun).
  destruct (sort_by tc_start (r :: records)) as [|c rest] eqn:Hsort.
  { pose proof (sort_by_perm tc_start (r :: records)) as Hp.
    rewrite Hsort in Hp. now apply Permutation_nil_cons in Hp. }
  rewrite (sorted_run_head _ _ _ _ _ _ Hperm Hrun Hsort).
  f_equal.
  rewrite <- Horig, Heq, !map_app, !join_app.
  pose proof (tiles_len _ _ _ Hpre) as Hla.
  pose proof (tiles_len _ _ _ Hrun) as Hlb.
  replace a with (len (join (map tc_text pre))) by lia.
  apply substr_of_middle; lia.
Qed.

(** X8: for records that tile [0, n) of an original text, a window
    0 <= start < end <= n, and any arrangement of exactly the records the
    range query's test selects (start below the window's end, end at or
    above the window's start), [joinTextChunksAndTrim] returns the
    characters of the original text from [start] up to [end], with the
    window's start and end. *)
Theorem joinTextChunksAndTrim_window (original : string) (n : Z)
    (ordered records : list TextChunk) (s e : Z) :
  tiles 0 ordered n ->
  join (map tc_text ordered) = original ->
  0 <= s -> s < e -> e <= n ->
  records ≡ₚ List.filter (overlaps s e) ordered ->
  joinTextChunksAndTrim (Some s) (Some e) records
  = {| j_text := substring original s e; j_start := Some s; j_end := Some e |}.
Proof. apply join_window. Qed.

Lemma joinTextChunksAndTrim_window_witness :
  joinTextChunksAndTrim (Some 2) (Some 5)
    [ {| tc_text := " hello"; tc_start := 3; tc_end := 9 |};
      {| tc_text := "the"; tc_start := 0; tc_end := 3 |} ]
  = {| j_text := "e h"; j_start := Some 2; j_end := Some 5 |}.
Proof.
  apply (joinTextChunksAndTrim_window "the hello " 10
           [ {| tc_text := "the"; tc_start := 0; tc_end := 3 |};
             {| tc_text := " hello"; tc_start := 3; tc_end := 9 |};
             {| tc_text := " "; tc_start := 9; tc_end := 10 |} ]
           [ {| tc_text := " hello"; tc_start := 3; tc_end := 9 |};
             {| tc_text := "the"; tc_start := 0; tc_end := 3 |} ] 2 5).
  - cbn. repeat split.
  - reflexivity.
  - lia.
  - lia.
  - lia.
  - cbn. apply perm_swap.
Defined.

End Window.

(** ** Import and fetch together *)

Section RoundTrip.
Import JsString.

(** Reading back the object built for a chunk. *)
Lemma as_chunk_chunk_object (textId : string) (c : Chunk) :
  as_chunk (chunk_object textId c) = chunk_record c.
Proof. unfold as_chunk, chunk_object, chunk_record. now simplify_map_eq. Qed.

(** The range query tests the object built for a chunk of the text as
    [overlaps] tests its record. *)
Lemma selects_chunk_object (textusIndex textId : string) (s e : Z) (c : Chunk) :
  selects (buildRangeQuery textusIndex textId (Some s) (Some e))
    (chunk_object textId c)
  = overlaps s e (chunk_record c).
Proof.
  unfold selects, buildRangeQuery, overlaps, chunk_object, chunk_record.
  cbn [q_must forallb clause_holds tc_start tc_end].
  simplify_map_eq. rewrite String.eqb_refl. cbn [andb]. now rewrite andb_true_r.
Qed.

Lemma selected_chunk_objects (textusIndex textId : string) (s e : Z)
    (chunks : list Chunk) :
  map as_chunk
    (List.filter (selects (buildRangeQuery textusIndex textId (Some s) (Some e)))
       (map (chunk_object textId) chunks))
  = List.filter (overlaps s e) (map chunk_record chunks).
Proof.
  induction chunks as [|c chunks IH]; [reflexivity |].
  cbn [map List.filter]. rewrite selects_chunk_object.
  destruct (overlaps s e (chunk_record c)); [| exact IH].
  cbn [map]. now rewrite as_chunk_chunk_object, IH.
Qed.

(** Chunks that lie end to end give records that tile. *)
Lemma contiguous_tiles (o : Z) (chunks : list Chunk) :
  contiguous o chunks ->
  tiles o (map chunk_record chunks) (o + len (join (map chunk_text chunks))).
Proof.
  revert o. induction chunks as [|c chunks IH]; intros o Hc.
  - cbn. unfold len. cbn. lia.
  - destruct Hc as [Ho Hc]. cbn [map tiles chunk_record tc_start tc_end tc_text].
    split; [exact Ho |]. split; [reflexivity |].
    rewrite join_cons, len_app, Ho.
    replace (o + (len (chunk_text c) + len (join (map chunk_text chunks))))
      with (o + len (chunk_text c) + len (join (map chunk_text chunks))) by lia.
    now apply IH.
Qed.

Lemma chunk_records_text (chunks : list Chunk) :
  map tc_text (map chunk_record chunks) = map chunk_text chunks.
Proof. induction chunks as [|c chunks IH]; [reflexivity | cbn; now rewrite IH]. Qed.

(** The records of the chunks of a text tile the merged text. *)
Lemma createTextChunks_tiles (fuel : nat) (maxSize : Z) (parts : list TextPart)
    (chunks : list Chunk) :
  createTextChunks fuel maxSize parts = Some chunks ->
  tiles 0 (map chunk_record chunks) (len (mergeParts parts)) /\
  join (map tc_text (map chunk_record chunks)) = mergeParts parts.
Proof.
  intros Hrun. apply createTextChunks_cuts, cuts_join in Hrun as [Hjoin Hcont].
  apply contiguous_tiles in Hcont. rewrite Hjoin, Z.add_0_l in Hcont.
  split; [exact Hcont |]. now rewrite chunk_records_text.
Qed.

Lemma fold_fetchCompleteText_hit (hits : list Hit) (acc : list Obj * list Obj) :
  fold_left fetchCompleteText_hit hits acc
  = (fst acc ++ map hit_source (hits_of_type "text" hits),
     snd acc ++ map with_id (hits_of_type "typography" hits)).
Proof.
  revert acc. induction hits as [|hit hits IH]; intros [texts typography].
  - cbn. now rewrite !app_nil_r.
  - cbn [fold_left]. rewrite IH. unfold fetchCompleteText_hit, hits_of_type.
    cbn [List.filter fst snd].
    destruct (String.eqb_spec (hit_type hit) "text") as [Ht | Ht].
    { rewrite Ht. cbn. now rewrite <- app_assoc. }
    destruct (String.eqb_spec (hit_type hit) "typography") as [Hy | Hy].
    { cbn. now rewrite <- app_assoc. }
    reflexivity.
Qed.

Section WithClient.
Context {S : Type} (client : Client S) (textusIndex : string).

(** X9: fetching a window of an imported text gives back that window.  When
    the text records in the store are the objects [importData] builds for
    the chunks of a text, the window is 0 <= start < end <= the length of
    the merged text, and the search answers, in any order and among
    annotation hits, with exactly the text records its query selects, then
    [fetchText] calls back with no error and with the characters of the
    merged text from [start] up to [end]. *)
Theorem fetchText_returns_window {R} (textId : string) (fuel : nat) (maxSize : Z)
    (parts : list TextPart) (chunks : list Chunk) (s e : Z)
    (callback : option JsError -> option FetchData -> World S -> R)
    (w : World S) (hits : list Hit) (s' : S) :
  createTextChunks fuel maxSize parts = Some chunks ->
  0 <= s -> s < e -> e <= len (mergeParts parts) ->
  es_search client (buildRangeQuery textusIndex textId (Some s) (Some e)) (store w)
  = (inr hits, s') ->
  unknown_types hits = [] ->
  map hit_source (hits_of_type "text" hits)
  ≡ₚ List.filter (selects (buildRangeQuery textusIndex textId (Some s) (Some e)))
       (map (chunk_object textId) chunks) ->
  fetchText client textusIndex textId (Some s) (Some e) callback w
  = callback None
      (Some {| fd_textId := textId;
               fd_text := substring (mergeParts parts) s e;
               fd_typography := map with_id (hits_of_type "typography" hits);
               fd_semantics := map with_id (hits_of_type "semantics" hits);
               fd_start := Some s;
               fd_end := Some e |})
      {| heap := heap w; store := s';
         calls := calls w
                  ++ [CallSearch (buildRangeQuery textusIndex textId (Some s) (Some e))
                        (inr hits)] |}.
Proof.
  intros Hrun Hs Hse He Hsearch Hknown Hperm.
  destruct (createTextChunks_tiles _ _ _ _ Hrun) as [Htiles Hjoin].
  apply (Permutation_map as_chunk) in Hperm. rewrite selected_chunk_objects in Hperm.
  unfold fetchText, client_search. rewrite Hsearch, fold_fetchText_hit, Hknown.
  cbn [last acc_error acc_textChunks acc_typography acc_semantics app fmap option_fmap
         option_map].
  now rewrite (join_window _ _ _ _ _ _ Htiles Hjoin Hs Hse He Hperm).
Qed.

(** X10: when the search succeeds, every hit is of type "text",
    "typography" or "semantics", and the text hits are text records (their
    [text] a string, their [start] a number), [fetchText] calls back with
    no error and with the data object: the text joined from the text hits
    and trimmed, and the annotations of the two kinds, each with its [id]
    set to the id of its hit, in the order of the hits. *)
Theorem fetchText_known_types {R} (textId : string) (start end_ : option Z)
    (callback : option JsError -> option FetchData -> World S -> R)
    (w : World S) (hits : list Hit) (s' : S) :
  es_search client (buildRangeQuery textusIndex textId start end_) (store w)
  = (inr hits, s') ->
  unknown_types hits = [] ->
  Forall (fun hit => text_record (hit_source hit)) (hits_of_type "text" hits) ->
  fetchText client textusIndex textId start end_ callback w
  = callback None
      (Some {| fd_textId := textId;
               fd_text :=
                 j_text (joinTextChunksAndTrim start end_
                           (map as_chunk
                              (map hit_source (hits_of_type "text" hits))));
               fd_typography := map with_id (hits_of_type "typography" hits);
               fd_semantics := map with_id (hits_of_type "semantics" hits);
               fd_start := start;
               fd_end := end_ |})
      {| heap := heap w; store := s';
         calls := calls w
                  ++ [CallSearch (buildRangeQuery textusIndex textId start end_)
                        (inr hits)] |}.
Proof.
  intros Hsearch Hknown _.
  unfold fetchText, client_search. now rewrite Hsearch, fold_fetchText_hit, Hknown.
Qed.

End WithClient.

(** X11: fetching the complete text of an imported text gives back the
    merged text.  When the search of [fetchCompleteText] answers with hits
    whose text hits carry, in any order, the objects [importData] builds
    for the chunks of a text, the callback gets no error and the merged
    text; hits of other types than "text" and "typography" are passed
    over without an error. *)
Theorem fetchCompleteText_round_trip {S R} (search : SearchRequest -> S -> (Err + list Hit) * S)
    (textusIndex textId : string) (fuel : nat) (maxSize : Z)
    (parts : list TextPart) (chunks : list Chunk)
    (callback : option Err -> option CompleteText -> S -> R)
    (s : S) (hits : list Hit) (s' : S) :
  createTextChunks fuel maxSize parts = Some chunks ->
  search {| sr_query := QueryText "textId" textId; sr_filter := None;
            sr_size := 1000000; sr_index := textusIndex |} s = (inr hits, s') ->
  map hit_source (hits_of_type "text" hits) ≡ₚ map (chunk_object textId) chunks ->
  fetchCompleteText search textusIndex textId callback s
  = callback None
      (Some {| ct_textId := textId;
               ct_text := mergeParts parts;
               ct_typography := map with_id (hits_of_type "typography" hits) |}) s'.
Proof.
  intros Hrun Hsearch Hperm.
  destruct (createTextChunks_tiles _ _ _ _ Hrun) as [Htiles Hjoin].
  apply (Permutation_map as_chunk) in Hperm.
  rewrite (map_map (chunk_object textId) as_chunk) in Hperm.
  rewrite (map_ext _ chunk_record (as_chunk_chunk_object textId)) in Hperm.
  unfold fetchCompleteText. rewrite Hsearch, fold_fetchCompleteText_hit.
  cbn [fst snd app]. do 3 f_equal.
  destruct (map as_chunk (map hit_source (hits_of_type "text" hits)))
    as [|r records] eqn:Hrecords.
  - apply Permutation_nil in Hperm. rewrite Hperm in Hjoin. now rewrite <- Hjoin.
  - unfold joinTextChunksAndTrim. cbn [j_text].
    now rewrite (join_sorted_run _ _ _ _ Hperm Htiles).
Qed.

End RoundTrip.

Lemma fetchText_returns_window_witness :
  fetchText scripted "textus" "t1" (Some 2) (Some 5)
    (fun err data w => (err, fd_text <$> data))
    (example_world example_search)
  = (None, Some "e h"%string).
Proof.
  rewrite (fetchText_returns_window scripted "textus" "t1" 4 6
             [ {| part_sequence := 1; part_text := "hello " |};
               {| part_sequence := 0; part_text := "the " |} ]
             [ {| chunk_text := "the"; chunk_offset := 0 |};
               {| chunk_text := " hello"; chunk_offset := 3 |};
               {| chunk_text := " "; chunk_offset := 9 |} ]
             2 5 _ (example_world example_search) example_hits example_search).
  - reflexivity.
  - reflexivity.
  - lia.
  - lia.
  - vm_compute. discriminate.
  - reflexivity.
  - reflexivity.
  - vm_compute. apply perm_swap.
Defined.

Lemma fetchText_known_types_witness :
  fetchText scripted "textus" "t1" None None
    (fun err data w => (err, fd_text <$> data))
    (example_world example_search)
  = (None, Some "the hello"%string).
Proof.
  rewrite (fetchText_known_types scripted "textus" "t1" None None _
             (example_world example_search) example_hits example_search).
  - reflexivity.
  - reflexivity.
  - reflexivity.
  - assert (Htext : hits_of_type "text" example_hits
                    = [ {| hit_type := "text"; hit_id := "c2";
                           hit_source :=
                             chunk_object "t1"
                               {| chunk_text := " hello"; chunk_offset := 3 |} |};
                        {| hit_type := "text"; hit_id := "c1";
                           hit_source :=
                             chunk_object "t1"
                               {| chunk_text := "the"; chunk_offset := 0 |} |} ])
      by reflexivity.
    rewrite Htext.
    repeat (apply Forall_cons; split; [split; eexists; reflexivity |]).
    apply Forall_nil. exact I.
Defined.

Lemma fetchCompleteText_round_trip_witness :
  fetchCompleteText
    (fun (_ : SearchRequest) (s : unit) =>
       (inr [ {| hit_type := "semantics"; hit_id := "s1"; hit_source := ∅ |};
              {| hit_type := "text"; hit_id := "c3";
                 hit_source :=
                   chunk_object "t1" {| chunk_text := " "; chunk_offset := 9 |} |};
              {| hit_type := "text"; hit_id := "c2";
                 hit_source :=
                   chunk_object "t1" {| chunk_text := " hello"; chunk_offset := 3 |} |};
              {| hit_type := "text"; hit_id := "c1";
                 hit_source :=
                   chunk_object "t1" {| chunk_text := "the"; chunk_offset := 0 |} |} ],
        s))
    "textus" "t1" (fun err data _ => (err, ct_text <$> data)) tt
  = (None, Some "the hello "%string).
Proof.
  erewrite (fetchCompleteText_round_trip _ "textus" "t1" 4 6
              [ {| part_sequence := 1; part_text := "hello " |};
                {| part_sequence := 0; part_text := "the " |} ]
              [ {| chunk_text := "the"; chunk_offset := 0 |};
                {| chunk_text := " hello"; chunk_offset := 3 |};
                {| chunk_text := " "; chunk_offset := 9 |} ]).
  - reflexivity.
  - reflexivity.
  - reflexivity.
  - vm_compute.
    eapply perm_trans; [apply perm_swap |].
    eapply perm_trans; [apply perm_skip, perm_swap |].
    apply perm_swap.
Defined.

(** ** Trimming *)

Lemma substr_len (t : string) (start length : Z) :
  JsString.len (JsString.substr t start length) <= Z.max length 0.
Proof.
  unfold JsString.substr. cbv zeta. unfold JsString.len at 1.
  rewrite length_take. pose proof (len_nonneg t).
  destruct (start <? 0); lia.
Qed.

(** X12: the text [joinTextChunksAndTrim] returns for a window is never
    longer than the window, whatever the records are, also when they have
    gaps or overlap or do not reach the window. *)
Theorem joinTextChunksAndTrim_at_most_window (start end_ : Z)
    (records : list TextChunk) :
  JsString.len (j_text (joinTextChunksAndTrim (Some start) (Some end_) records))
  <= Z.max (end_ - start) 0.
Proof.
  destruct records as [|r records]; [unfold JsString.len; cbn; lia |].
  unfold joinTextChunksAndTrim. cbn [j_text]. apply substr_len.
Qed.

(** ** The indexing pipeline, continued *)

Section PipelineMore.
Context {S : Type} (client : Client S).

(** X13: [indexArray] ends a list at its first falsy item as if the list
    ended there: the items after it are never written and no error is
    reported for them. *)
Theorem indexArray_stops_at_falsy {R} (index type : string)
    (before after : list JsVal) (item : JsVal)
    (callback : option Err -> World S -> R) (w : World S) :
  truthy item = false ->
  indexArray client index type (before ++ item :: after) callback w
  = indexArray client index type before callback w.
Proof.
  intros Hitem. revert w.
  induction before as [|x before IH]; intros w; cbn [app indexArray].
  - now rewrite Hitem.
  - destruct (truthy x); [| reflexivity].
    unfold client_index.
    destruct (es_index client index type x (snapshot (heap w) x) None (store w))
      as [[e | res] s']; [reflexivity | apply IH].
Qed.

(** X14: [storeBibliographicReferences] writes the references one at a
    time, in order, under the type "bibjson", up to the first write that
    fails; the callback gets that write's error as the store gave it, or
    null when no write failed. *)
Theorem storeBibliographicReferences_run {R} (textusIndex : string)
    (refs : list JsVal) (callback : option Err -> World S -> R) (w : World S) :
  Forall (fun ref => truthy ref = true) refs ->
  exists (log : list Attempt) (err : option Err) (w' : World S),
    storeBibliographicReferences client textusIndex refs callback w
    = callback err w' /\
    calls w' = calls w ++ map (attempt_call textusIndex (heap w)) log /\
    match err with
    | None =>
        map attempt_write log = map (pair "bibjson"%string) refs /\
        Forall succeeded log
    | Some e =>
        exists done ref rest,
          log = done ++ [("bibjson"%string, ref, inl e)] /\
          Forall succeeded done /\
          map (pair "bibjson"%string) refs
          = map attempt_write done ++ ("bibjson"%string, ref) :: rest
    end.
Proof.
  intros Htruthy. unfold storeBibliographicReferences.
  destruct (indexArray_run client textusIndex "bibjson" refs
              (fun err => callback err) w)
    as (log & err & w' & Hrun & _ & Hcalls & Hcase).
  rewrite (shifted_truthy _ Htruthy) in Hcase.
  exists log, err, w'. now repeat split.
Qed.

End PipelineMore.

Lemma indexArray_stops_at_falsy_witness :
  indexArray scripted "textus" "text"
    ([VObj 11%positive] ++ VNull :: [VObj 12%positive])
    (fun err w => (err, length (calls w)))
    (example_world second_write_fails)
  = (None, 1%nat).
Proof.
  rewrite (indexArray_stops_at_falsy scripted "textus" "text"
             [VObj 11%positive] [VObj 12%positive] VNull).
  - reflexivity.
  - reflexivity.
Defined.

Lemma storeBibliographicReferences_run_witness :
  Forall (fun ref => truthy ref = true)
    [VObj 11%positive; VObj 12%positive; VObj 13%positive] /\
  exists (log : list Attempt) (err : option Err) (w' : World Script),
    storeBibliographicReferences scripted "textus"
      [VObj 11%positive; VObj 12%positive; VObj 13%positive]
      (fun err w => (err, w)) (example_world second_write_fails)
    = (err, w') /\
    calls w' = calls (example_world second_write_fails)
               ++ map (attempt_call "textus" (heap (example_world second_write_fails))) log /\
    match err with
    | None =>
        map attempt_write log
        = map (pair "bibjson"%string)
            [VObj 11%positive; VObj 12%positive; VObj 13%positive] /\
        Forall succeeded log
    | Some e =>
        exists done ref rest,
          log = done ++ [("bibjson"%string, ref, inl e)] /\
          Forall succeeded done /\
          map (pair "bibjson"%string)
            [VObj 11%positive; VObj 12%positive; VObj 13%positive]
          = map attempt_write done ++ ("bibjson"%string, ref) :: rest
    end.
Proof.
  assert (Htruthy : Forall (fun ref => truthy ref = true)
                      [VObj 11%positive; VObj 12%positive; VObj 13%positive])
    by (repeat constructor).
  split; [exact Htruthy |].
  exact (storeBibliographicReferences_run scripted "textus" _
           (fun err w => (err, w)) (example_world second_write_fails) Htruthy).
Defined.

(** ** Summaries *)

Section Summaries.
Context {S : Type} (search : SearchRequest -> S -> (Err + list Hit) * S).

Lemma fold_summaries_own (hits : list Hit) (acc : Summaries) (id : string) :
  id <> "__proto__"%string ->
  own (fold_left summaries_assign hits acc) !! id
  = match last (hits_with_id id hits) with
    | Some hit => Some (summary_of hit)
    | None => own acc !! id
    end.
Proof.
  intros Hid. revert acc. induction hits as [|hit hits IH]; intros acc;
    [reflexivity |].
  cbn [fold_left]. rewrite IH. unfold hits_with_id. cbn [List.filter].
  unfold summaries_assign.
  destruct (String.eqb_spec (hit_id hit) "__proto__") as [Hp | Hp].
  - destruct (String.eqb_spec (hit_id hit) id) as [He | He]; [congruence |].
    reflexivity.
  - cbn [own]. destruct (String.eqb_spec (hit_id hit) id) as [-> | Hne].
    + rewrite last_cons, lookup_insert_eq.
      now destruct (last (List.filter _ hits)).
    + rewrite lookup_insert_ne by exact Hne. reflexivity.
Qed.

Lemma fold_summaries_proto_key (hits : list Hit) (acc : Summaries) :
  own (fold_left summaries_assign hits acc) !! "__proto__"%string
  = own acc !! "__proto__"%string.
Proof.
  revert acc. induction hits as [|hit hits IH]; intros acc; [reflexivity |].
  cbn [fold_left]. rewrite IH. unfold summaries_assign.
  destruct (String.eqb_spec (hit_id hit) "__proto__") as [Hp | Hp]; [reflexivity |].
  cbn [own]. now rewrite lookup_insert_ne.
Qed.

Lemma fold_summaries_prototype (hits : list Hit) (acc : Summaries) :
  prototype (fold_left summaries_assign hits acc)
  = match last (hits_with_id "__proto__" hits) with
    | Some hit => Some (summary_of hit)
    | None => prototype acc
    end.
Proof.
  revert acc. induction hits as [|hit hits IH]; intros acc; [reflexivity |].
  cbn [fold_left]. rewrite IH. unfold hits_with_id. cbn [List.filter].
  unfold summaries_assign.
  destruct (String.eqb_spec (hit_id hit) "__proto__") as [Hp | Hp].
  - rewrite last_cons. cbn [prototype].
    now destruct (last (List.filter _ hits)).
  - reflexivity.
Qed.

(** X15: when its search succeeds, [getTextStructureSummaries] calls back
    with no error and with an object that has, for every id other than
    "__proto__", as its own property the title, owners and date of the last
    hit with that id, a missing property of the hit being [undefined], and
    no own property for an id that no hit has; a hit with the id
    "__proto__" makes no own property: the entry of the last such hit
    becomes the prototype of the object. *)
Theorem getTextStructureSummaries_lookup {R} (textusIndex : string)
    (callback : option Err -> option Summaries -> S -> R)
    (s : S) (hits : list Hit) (s' : S) :
  search {| sr_query := QueryMatchAll; sr_filter := Some "structure"%string;
            sr_size := 10000; sr_index := textusIndex |} s = (inr hits, s') ->
  exists result : Summaries,
    getTextStructureSummaries search textusIndex callback s
    = callback None (Some result) s' /\
    (forall id : string,
        id <> "__proto__"%string ->
        own result !! id = summary_of <$> last (hits_with_id id hits)) /\
    own result !! "__proto__"%string = None /\
    prototype result = summary_of <$> last (hits_with_id "__proto__" hits).
Proof.
  intros Hsearch. unfold getTextStructureSummaries. rewrite Hsearch.
  eexists. split; [reflexivity |]. split; [| split].
  - intros id Hid. rewrite fold_summaries_own by exact Hid. cbn [own].
    rewrite lookup_empty. now destruct (last (hits_with_id id hits)).
  - rewrite fold_summaries_proto_key. apply lookup_empty.
  - rewrite fold_summaries_prototype. cbn [prototype].
    now destruct (last (hits_with_id "__proto__" hits)).
Qed.

End Summaries.

Lemma getTextStructureSummaries_lookup_witness :
  exists result : Summaries,
    getTextStructureSummaries
      (fun (_ : SearchRequest) (s : unit) =>
         (inr [ {| hit_type := "structure"; hit_id := "t1";
                   hit_source := <["title"%string := VStr "Walden"]> ∅ |};
                {| hit_type := "structure"; hit_id := "__proto__";
                   hit_source := <["title"%string := VStr "Proto"]> ∅ |};
                {| hit_type := "structure"; hit_id := "t1";
                   hit_source := <["title"%string := VStr "Walden, 2nd"]> ∅ |} ], s))
      "textus" (fun err result _ => (err, result)) tt
    = (None, Some result) /\
    own result !! "t1"%string
    = Some {| sum_title := VStr "Walden, 2nd"; sum_owners := VUndefined;
              sum_date := VUndefined |} /\
    own result !! "t2"%string = None /\
    own result !! "__proto__"%string = None /\
    prototype result
    = Some {| sum_title := VStr "Proto"; sum_owners := VUndefined;
              sum_date := VUndefined |}.
Proof.
  destruct (getTextStructureSummaries_lookup
              (fun (_ : SearchRequest) (s : unit) =>
                 (inr [ {| hit_type := "structure"; hit_id := "t1";
                           hit_source := <["title"%string := VStr "Walden"]> ∅ |};
                        {| hit_type := "structure"; hit_id := "__proto__";
                           hit_source := <["title"%string := VStr "Proto"]> ∅ |};
                        {| hit_type := "structure"; hit_id := "t1";
                           hit_source := <["title"%string := VStr "Walden, 2nd"]> ∅ |} ],
                  s))
              "textus" (fun err result _ => (err, result)) tt _ tt eq_refl)
    as (result & Hrun & Hown & Hkey & Hproto).
  exists result. split; [exact Hrun |].
  split; [rewrite Hown by discriminate; reflexivity |].
  split; [rewrite Hown by discriminate; reflexivity |].
  split; [exact Hkey | rewrite Hproto; reflexivity].
Defined.

(** ** The writes of an import *)

Section ImportWrites.
Context {S : Type} (client : Client S) (textusIndex : string).

(** X16: when the write of the metadata fails, [importData] hands that
    error and a null id to its callback at once: the text is not cut into
    chunks, which holds for texts on which the chunking would not end as
    well, and no other request is made. *)
Theorem importData_metadata_failure {R} (fuel : nat) (data : ImportData)
    (callback : option Err -> option string -> World S -> R) (w : World S)
    (err : Err) (s1 : S) :
  let m := data_metadata data in
  let h0 := set_field m "date" (VFun DateNow) (heap w) in
  es_index client textusIndex "structure" (VObj m) (h0 !! m) None (store w)
  = (inl err, s1) ->
  importData client textusIndex fuel data callback w
  = Done (callback (Some err) None
            {| heap := h0; store := s1;
               calls := calls w
                        ++ [CallIndex textusIndex "structure" (VObj m) (h0 !! m)
                              None (inl err)] |}).
Proof.
  intros m h0 Hindex. unfold importData, client_index.
  cbn [heap store calls snapshot]. fold m. fold h0. now rewrite Hindex.
Qed.

Lemma stamp_lookup (textId : string) (annotations : list loc) (h : Heap) (l : loc) :
  snd (stamp_annotations textId annotations h) !! l
  = if decide (l ∈ annotations) then stamped textId h l else h !! l.
Proof.
  unfold stamp_annotations, stamped. cbn [snd]. revert h.
  induction annotations as [|a annotations IH]; intros h.
  - cbn [fold_left]. rewrite decide_False; [reflexivity | apply not_elem_of_nil].
  - cbn [fold_left]. rewrite IH. unfold set_field. rewrite lookup_alter.
    destruct (decide (l ∈ annotations)) as [Hin | Hnin];
      destruct (decide (a = l)) as [-> | Hne].
    + rewrite decide_True by (now left).
      destruct (h !! l) as [o |]; [| reflexivity].
      cbn. now rewrite insert_insert_eq.
    + rewrite decide_True by (now right). reflexivity.
    + rewrite decide_True by (now left). reflexivity.
    + rewrite decide_False; [reflexivity |].
      intros Hin. apply elem_of_cons in Hin as [-> | Hin]; contradiction.
Qed.

Lemma alloc_chunks_spec (textId : string) (chunks : list Chunk) :
  forall (h : Heap) (items : list JsVal) (h' : Heap),
    alloc_chunks textId chunks h = (items, h') ->
    (forall l, is_Some (h !! l) -> h' !! l = h !! l) /\
    exists locs : list loc,
      items = map VObj locs /\
      Forall (fun l => h !! l = None) locs /\
      map (fun l => h' !! l) locs
      = map (fun c => Some (chunk_object textId c)) chunks.
Proof.
  induction chunks as [|c chunks IH]; intros h items h' Halloc.
  - injection Halloc as <- <-. split; [reflexivity |]. exists []. repeat split.
    constructor.
  - cbn [alloc_chunks alloc] in Halloc.
    destruct (alloc_chunks textId chunks (<[fresh (dom h) := chunk_object textId c]> h))
      as [items' h''] eqn:Hrest.
    injection Halloc as <- <-.
    destruct (IH _ _ _ Hrest) as (Hkeep & locs & -> & Hnew & Hlook).
    assert (Hfresh : h !! fresh (dom h) = None).
    { apply not_elem_of_dom, is_fresh. }
    split.
    + intros l Hl. rewrite Hkeep.
      * apply lookup_insert_ne. intros Heq. rewrite <- Heq, Hfresh in Hl.
        now destruct Hl.
      * rewrite lookup_insert_ne; [exact Hl |].
        intros Heq. rewrite <- Heq, Hfresh in Hl. now destruct Hl.
    + exists (fresh (dom h) :: locs). split; [reflexivity |]. split.
      * constructor; [exact Hfresh |].
        eapply Forall_impl; [exact Hnew |]. cbn. intros l Hl.
        destruct (decide (fresh (dom h) = l)) as [<- | Hne]; [exact Hfresh |].
        now rewrite lookup_insert_ne in Hl.
      * cbn [map]. rewrite Hlook. f_equal.
        rewrite Hkeep by (rewrite lookup_insert_eq; eauto).
        apply lookup_insert_eq.
Qed.

Lemma written_attempts (index : string) (h : Heap) (log : list Attempt) :
  omap written (map (attempt_call index h) log)
  = map (fun a => (fst a, snapshot h (snd a))) (map attempt_write log).
Proof.
  induction log as [|[[type item] reply] log IH]; [reflexivity |].
  cbn [map omap list_omap written attempt_call attempt_write fst snd].
  cbn [omap] in IH. now rewrite IH.
Qed.

Lemma failed_writes_app (l k : list Call) :
  failed_writes (l ++ k) = failed_writes l ++ failed_writes k.
Proof. unfold failed_writes. apply flat_map_app. Qed.

Lemma failed_writes_succeeded (index : string) (h : Heap) (log : list Attempt) :
  Forall succeeded log -> failed_writes (map (attempt_call index h) log) = [].
Proof.
  induction 1 as [|[[type item] reply] log [res Hres] _ IH]; [reflexivity |].
  cbn in Hres. subst reply. exact IH.
Qed.

(** X17: once the metadata is written and the text is cut, [importData]
    asks the store, after the structure record, for the writes of one text
    record per chunk, in offset order, each the object
    [{textId, text, start, end}] with the id the store gave the structure
    record, with [start] the chunk's offset and [end] the offset plus the
    length of the text; then of the semantics annotations and of the
    typography annotations, each with its [textId] set to that id.  The
    writes stop at the first one that fails: either none fails and all of
    them are made, or the one that fails is the last write made and all
    before it succeeded.  Whether one failed or not a refresh follows, and
    the callback gets the answer to the refresh together with the id. *)
Theorem importData_writes {R} (fuel : nat) (data : ImportData)
    (callback : option Err -> option string -> World S -> R) (w : World S)
    (res : IndexResult) (s1 : S) (chunks : list Chunk) :
  let m := data_metadata data in
  let h0 := set_field m "date" (VFun DateNow) (heap w) in
  Forall (fun l => is_Some (heap w !! l))
    (data_semantics data ++ data_typography data) ->
  es_index client textusIndex "structure" (VObj m) (h0 !! m) None (store w)
  = (inr res, s1) ->
  createTextChunks fuel textChunkSize (data_text data) = Some chunks ->
  exists (w' : World S) (reply : option Err) (log : list Call),
    importData client textusIndex fuel data callback w
    = Done (callback reply (Some (res_id res)) w') /\
    calls w'
    = calls w
      ++ [CallIndex textusIndex "structure" (VObj m) (h0 !! m) None (inr res)]
      ++ log ++ [CallRefresh textusIndex reply] /\
    length (omap written log) = length log /\
    omap written log `prefix_of` import_records (res_id res) h0 chunks data /\
    (failed_writes log = [] ->
     omap written log = import_records (res_id res) h0 chunks data) /\
    (failed_writes log = [] \/
     exists (done : list Call) (type : string) (item : JsVal)
            (doc : option Obj) (e : Err),
       log = done ++ [CallIndex textusIndex type item doc None (inl e)] /\
       failed_writes done = []).
Proof.
  intros m h0 Hann Hindex Hchunks.
  unfold importData, client_index. cbn [heap store calls snapshot].
  fold m. fold h0. rewrite Hindex, Hchunks.
  destruct (alloc_chunks (res_id res) chunks h0) as [text h1] eqn:Halloc.
  destruct (alloc_chunks_spec _ _ _ _ _ Halloc) as (Hkeep & locs & -> & Hnew & Hlook).
  pose proof (stamp_lookup (res_id res) (data_semantics data) h1) as Hsem.
  pose proof (stamp_lookup (res_id res) (data_typography data)
                (snd (stamp_annotations (res_id res) (data_semantics data) h1)))
    as Htyp.
  unfold stamp_annotations in *. cbn [fst snd] in *.
  set (h2 := fold_left (fun h l => set_field l "textId" (VStr (res_id res)) h)
               (data_semantics data) h1) in *.
  set (h3 := fold_left (fun h l => set_field l "textId" (VStr (res_id res)) h)
               (data_typography data) h2) in *.
  (* the objects of the annotations and of the chunks in the final heap *)
  assert (Hsome : forall l, is_Some (heap w !! l) -> is_Some (h0 !! l)).
  { intros l Hl. unfold h0, set_field. rewrite lookup_alter.
    destruct (decide (m = l)) as [-> |]; [| exact Hl].
    destruct Hl as [o ->]. cbn. eauto. }
  assert (Hh1 : forall l, is_Some (heap w !! l) -> h1 !! l = h0 !! l).
  { intros l Hl. apply Hkeep, Hsome, Hl. }
  assert (Hidem : forall l, stamped (res_id res) h0 l
                            = <["textId"%string := VStr (res_id res)]>
                                <$> stamped (res_id res) h0 l).
  { intros l. unfold stamped. destruct (h0 !! l) as [o |]; [| reflexivity].
    cbn. now rewrite insert_insert_eq. }
  assert (Hannot : forall l, l ∈ data_semantics data ++ data_typography data ->
                             h3 !! l = stamped (res_id res) h0 l).
  { intros l Hl. rewrite Forall_forall in Hann. pose proof (Hann _ Hl) as Hin.
    specialize (Hidem l). rewrite Htyp. unfold stamped in *.
    rewrite !Hsem. unfold stamped. rewrite (Hh1 _ Hin).
    apply elem_of_app in Hl.
    destruct (decide (l ∈ data_typography data)) as [Ht | Ht];
      destruct (decide (l ∈ data_semantics data)) as [Hs | Hs].
    - symmetry. exact Hidem.
    - reflexivity.
    - reflexivity.
    - destruct Hl; contradiction. }
  assert (Hchunk : map (fun l => h3 !! l) locs
                   = map (fun c => Some (chunk_object (res_id res) c)) chunks).
  { rewrite <- Hlook. apply map_ext_Forall.
    eapply Forall_impl; [exact Hnew |]. cbn. intros l Hl.
    assert (Hout : l ∉ data_semantics data ++ data_typography data).
    { intros Hin. rewrite Forall_forall in Hann. apply Hann, Hsome in Hin.
      rewrite Hl in Hin. now destruct Hin. }
    rewrite Htyp, Hsem.
    rewrite decide_False by (intros H; apply Hout, elem_of_app; now right).
    rewrite decide_False by (intros H; apply Hout, elem_of_app; now left).
    reflexivity. }
  (* the run of the pipeline *)
  match goal with
  | |- context [indexArrays client textusIndex ?lists ?k ?w1] =>
      destruct (indexArrays_run client textusIndex lists k w1)
        as (alog & err & w2 & Hrun & Hheap & Hcalls & Hcase);
      assert (Htaken : taken lists = lists)
  end.
  { apply taken_truthy. repeat constructor; cbn [coll_list];
      apply Forall_forall; intros item Hitem;
      apply list_elem_of_fmap in Hitem as (l & -> & _); reflexivity. }
  rewrite Htaken in Hcase. clear Htaken.
  rewrite Hrun. unfold client_refresh.
  destruct (es_refresh client textusIndex (store w2)) as [reply s2].
  cbn [heap store calls] in *.
  eexists _, reply, (map (attempt_call textusIndex h3) alog).
  split; [reflexivity |]. cbn [calls].
  split; [rewrite Hcalls, <- !app_assoc; reflexivity |].
  rewrite written_attempts.
  split; [now rewrite !length_map |].
  assert (Hall : map (fun a : string * JsVal => (fst a, snapshot h3 (snd a)))
                   (supplied
                      [ {| coll_type := "text"; coll_list := map VObj locs |};
                        {| coll_type := "semantics";
                           coll_list := map VObj (data_semantics data) |};
                        {| coll_type := "typography";
                           coll_list := map VObj (data_typography data) |} ])
                 = import_records (res_id res) h0 chunks data).
  { unfold supplied, import_records.
    cbn [map concat coll_type coll_list]. rewrite app_nil_r, !map_app, !map_map.
    cbn [fst snd snapshot]. f_equal; [| f_equal].
    - rewrite <- (map_map (fun l => h3 !! l) (pair "text"%string)), Hchunk.
      now rewrite map_map.
    - apply map_ext_Forall, Forall_forall. intros l Hl. cbn.
      f_equal. apply Hannot, elem_of_app. now left.
    - apply map_ext_Forall, Forall_forall. intros l Hl. cbn.
      f_equal. apply Hannot, elem_of_app. now right. }
  destruct err as [e |].
  - destruct Hcase as (done & type & item & e0 & rest & -> & Hdone & Hsup & _).
    rewrite Hsup in Hall. rewrite <- Hall.
    split; [| split].
    + exists (map (fun a : string * JsVal => (fst a, snapshot h3 (snd a))) rest).
      rewrite !map_app. cbn [map attempt_write fst]. now rewrite <- app_assoc.
    + intros Hfailed. exfalso. rewrite map_app, failed_writes_app in Hfailed.
      apply app_eq_nil in Hfailed as [_ Hfailed]. discriminate Hfailed.
    + right. exists (map (attempt_call textusIndex h3) done), type, item,
        (snapshot h3 item), e0.
      split; [now rewrite map_app |]. now apply failed_writes_succeeded.
  - destruct Hcase as [Hsup Hall_ok]. rewrite Hsup, Hall.
    split; [reflexivity |]. split; [trivial |].
    left. now apply failed_writes_succeeded.
Qed.

End ImportWrites.

Lemma importData_metadata_failure_witness :
  importData scripted "textus" 0 example_token_data
    (fun err textId w => (err, textId, length (calls w)))
    (example_world first_write_fails)
  = Done (Some boom, None, 1%nat).
Proof.
  rewrite (importData_metadata_failure scripted "textus" 0 example_token_data _
             (example_world first_write_fails) boom
             {| script_index := []; script_search := inr [];
                script_get := inr ∅; script_refresh := None |}).
  - reflexivity.
  - reflexivity.
Defined.

Lemma importData_writes_witness :
  Forall (fun l => is_Some (heap (example_world second_write_fails) !! l))
    (data_semantics example_data ++ data_typography example_data) /\
  exists (w' : World Script) (reply : option Err) (log : list Call),
    importData scripted "textus" 3 example_data
      (fun err textId w => (err, textId, w)) (example_world second_write_fails)
    = Done (reply, Some "t1"%string, w') /\
    omap written log
    `prefix_of`
      import_records "t1"
        (set_field 1%positive "date" (VFun DateNow)
           (heap (example_world second_write_fails)))
        [ {| chunk_text := "hello"; chunk_offset := 0 |};
          {| chunk_text := " world"; chunk_offset := 5 |} ]
        example_data /\
    (failed_writes log = [] \/
     exists (done : list Call) (type : string) (item : JsVal)
            (doc : option Obj) (e : Err),
       log = done ++ [CallIndex "textus" type item doc None (inl e)] /\
       failed_writes done = []).
Proof.
  assert (Hann : Forall (fun l => is_Some (heap (example_world second_write_fails) !! l))
                   (data_semantics example_data ++ data_typography example_data)).
  { repeat constructor. vm_compute. eauto. }
  split; [exact Hann |].
  destruct (importData_writes scripted "textus" 3 example_data
              (fun err textId w => (err, textId, w))
              (example_world second_write_fails)
              {| res_id := "t1" |}
              {| script_index := [inl boom]; script_search := inr [];
                 script_get := inr ∅; script_refresh := None |}
              [ {| chunk_text := "hello"; chunk_offset := 0 |};
                {| chunk_text := " world"; chunk_offset := 5 |} ]
              Hann eq_refl eq_refl)
    as (w' & reply & log & Hrun & _ & _ & Hprefix & _ & Hlast).
  exists w', reply, log. split; [exact Hrun |]. split; [exact Hprefix | exact Hlast].
Defined.
